(** * pr-bot: a Slack bot that announces pull requests and cleans them up

    Shallow embedding of the bot and verification of its reaction-driven
    deletion workflow.  The repository holds two variants of the one source
    file.  The embedding follows the later one: four mapped reactions, the
    channel topic, the check of the environment at start-up.  The texts in
    which the earlier variant ([src/index.ts]) differs are in [Earlier], the
    handlers in which it differs in [EarlierBot].

    Modelling conventions.
    - A JavaScript string is the list of its UTF-16 code units ([jstring]).
      Literals are written [js "..."], which decodes the UTF-8 bytes of the
      Rocq literal.
    - [string | undefined] and [string | null] are [option jstring].
    - An [async] function is a term of the free monad [Async]: module-level
      state is read and written through [Get]/[Put], every [await] of a Slack
      Web API call is an [Await] node whose continuation receives the settled
      promise, and [return]/[throw] are abrupt completions.
    - The two module-level registries are a [gmap] (the [Map]) and a [gset]
      (the [Set]); the timers of the JavaScript runtime are a table from
      timeout ids to the captured variables of the scheduled callback.
    - [console] and [logger] output is not modelled. *)

From stdpp Require Import gmap strings list pretty.
From Stdlib Require Import NArith.

Set Default Proof Using "Type".
(* [set_solver] clears hypotheses that may be absent *)
#[global] Set Warnings "-clear-no-such-hyp".

(* ================================================================== *)
(** ** JavaScript strings *)
(* ================================================================== *)

Module JsString.

Local Open Scope N_scope.

(** A string is a sequence of UTF-16 code units. *)
Abbreviation jstring := (list N).

Definition byte_to_N (b : Byte.byte) : N := Byte.to_N b.

(** Decoding of well-formed UTF-8 into code points. *)
Fixpoint utf8_decode (bs : list N) : list N :=
  match bs with
  | [] => []
  | b0 :: r0 =>
      if b0 <? 0x80 then b0 :: utf8_decode r0
      else if b0 <? 0xE0 then
        match r0 with
        | b1 :: r1 =>
            N.lor (N.shiftl (N.land b0 0x1F) 6) (N.land b1 0x3F) :: utf8_decode r1
        | _ => []
        end
      else if b0 <? 0xF0 then
        match r0 with
        | b1 :: b2 :: r2 =>
            N.lor (N.shiftl (N.land b0 0x0F) 12)
              (N.lor (N.shiftl (N.land b1 0x3F) 6) (N.land b2 0x3F))
            :: utf8_decode r2
        | _ => []
        end
      else
        match r0 with
        | b1 :: b2 :: b3 :: r3 =>
            N.lor (N.shiftl (N.land b0 0x07) 18)
              (N.lor (N.shiftl (N.land b1 0x3F) 12)
                 (N.lor (N.shiftl (N.land b2 0x3F) 6) (N.land b3 0x3F)))
            :: utf8_decode r3
        | _ => []
        end
  end.

(** A code point outside the Basic Multilingual Plane is a surrogate pair. *)
Definition utf16_units (cp : N) : list N :=
  if cp <? 0x10000 then [cp]
  else
    let c := cp - 0x10000 in
    [0xD800 + N.shiftr c 10; 0xDC00 + N.land c 0x3FF].

Definition js (s : string) : jstring :=
  concat (map utf16_units (utf8_decode (map byte_to_N (String.list_byte_of_string s)))).

(** [s1 === s2] on strings. *)
Definition str_eqb (a b : jstring) : bool := bool_decide (a = b).

(** [a === b] where either side may be [undefined]. *)
Definition opt_eqb (a b : option jstring) : bool := bool_decide (a = b).

(** Truthiness of [string | undefined]: the empty string and [undefined]
    are falsy. *)
Definition truthy (o : option jstring) : bool :=
  match o with
  | Some (_ :: _) => true
  | _ => false
  end.

(** [o || d] *)
Definition or_else (o : option jstring) (d : jstring) : jstring :=
  if truthy o then default d o else d.

Definition is_ascii_upper (c : N) : bool := (0x41 <=? c) && (c <=? 0x5A).
Definition is_ascii_lower (c : N) : bool := (0x61 <=? c) && (c <=? 0x7A).
Definition is_digit (c : N) : bool := (0x30 <=? c) && (c <=? 0x39).

(** [String.prototype.toLowerCase], on the Basic Latin letters and on
    U+212A KELVIN SIGN, the one further code unit whose lower case is a
    Basic Latin letter.  Every other code unit is left in place: its real
    lower case lies outside Basic Latin, but for U+0130, which becomes an
    [i] followed by U+0307.  The program only compares the result with, or
    looks in it for, the words [ez], [:ez:], [small], [medium] and [large];
    none of them ends in [i], so these tests have the same answer here. *)
Definition lower_unit (c : N) : N :=
  if is_ascii_upper c then c + 0x20
  else if c =? 0x212A then 0x6B
  else c.

Definition toLowerCase (s : jstring) : jstring := map lower_unit s.

Definition upper_unit (c : N) : N :=
  if is_ascii_lower c then c - 0x20 else c.

(** [s.includes(t)] *)
Fixpoint starts_with (t s : jstring) : bool :=
  match t, s with
  | [], _ => true
  | a :: t', b :: s' => (a =? b) && starts_with t' s'
  | _ :: _, [] => false
  end.

Fixpoint includes (s t : jstring) : bool :=
  starts_with t s ||
  match s with
  | [] => false
  | _ :: s' => includes s' t
  end.

(** [parts.join(sep)] *)
Fixpoint join (sep : jstring) (parts : list jstring) : jstring :=
  match parts with
  | [] => []
  | [p] => p
  | p :: rest => p ++ sep ++ join sep rest
  end.

End JsString.
Export JsString.

(* ================================================================== *)
(** ** Regular expressions

    The three patterns of the program are concatenations of single
    characters, a greedy [\s*], and one capturing group [([A-Z0-9]+)].
    [match_here] is the backtracking matcher of ECMAScript restricted to
    these forms; [re_search] is [String.prototype.match] without the [g]
    flag, projected on capture group 1. *)
(* ================================================================== *)

Module Regex.

Local Open Scope N_scope.

Inductive Atom :=
| Chr (c : N)        (* a pattern character *)
| Space              (* \s *)
| UpperAlnum.        (* [A-Z0-9] *)

Inductive Node :=
| One (a : Atom)          (* a *)
| Star (a : Atom)         (* a*, greedy *)
| GroupPlus (a : Atom).   (* (a+), greedy, captured *)

Record RegExp := { ignoreCase : bool; nodes : list Node }.

(** White space of ECMAScript: WhiteSpace and LineTerminator. *)
Definition is_space (c : N) : bool :=
  ((0x09 <=? c) && (c <=? 0x0D)) || (c =? 0x20) || (c =? 0xA0)
  || (c =? 0x1680) || ((0x2000 <=? c) && (c <=? 0x200A))
  || (c =? 0x2028) || (c =? 0x2029) || (c =? 0x202F) || (c =? 0x205F)
  || (c =? 0x3000) || (c =? 0xFEFF).

(** Canonicalize of a pattern without the [u] flag: upper case, except that
    a code unit of 128 or more is never mapped below 128.  Only the
    comparison with Basic Latin pattern characters is used, for which the
    Basic Latin mapping is the whole function. *)
Definition canonicalize (i : bool) (c : N) : N :=
  if i then upper_unit c else c.

Definition atom_match (i : bool) (a : Atom) (c : N) : bool :=
  match a with
  | Chr p => canonicalize i c =? canonicalize i p
  | Space => is_space c
  | UpperAlnum =>
      let c' := canonicalize i c in is_ascii_upper c' || is_digit c'
  end.

Fixpoint match_here (i : bool) (re : list Node) (cap : jstring) (s : jstring)
  {struct re} : option jstring :=
  match re with
  | [] => Some cap
  | One a :: re' =>
      match s with
      | c :: s' => if atom_match i a c then match_here i re' cap s' else None
      | [] => None
      end
  | Star a :: re' =>
      (fix star (s : jstring) : option jstring :=
         match s with
         | c :: s' =>
             if atom_match i a c then
               match star s' with
               | Some r => Some r
               | None => match_here i re' cap s
               end
             else match_here i re' cap s
         | [] => match_here i re' cap s
         end) s
  | GroupPlus a :: re' =>
      match s with
      | c :: s' =>
          if atom_match i a c then
            (fix plus (acc : jstring) (s : jstring) : option jstring :=
               match s with
               | c :: s' =>
                   if atom_match i a c then
                     match plus (acc ++ [c]) s' with
                     | Some r => Some r
                     | None => match_here i re' acc s
                     end
                   else match_here i re' acc s
               | [] => match_here i re' acc s
               end) [c] s'
          else None
      | [] => None
      end
  end.

(** The leftmost match, tried from every start index in turn. *)
Fixpoint re_search_nodes (i : bool) (re : list Node) (s : jstring) : option jstring :=
  match match_here i re [] s with
  | Some cap => Some cap
  | None =>
      match s with
      | [] => None
      | _ :: s' => re_search_nodes i re s'
      end
  end.

Definition re_search (re : RegExp) (s : jstring) : option jstring :=
  re_search_nodes (ignoreCase re) (nodes re) s.

Definition lit (s : string) : list Node := map (fun c => One (Chr c)) (js s).

(** [text.split(/\s+/)]: [insep] tells that the previous code unit was white
    space, [cur] is the piece being read, reversed. *)
Fixpoint split_ws_from (insep : bool) (cur : jstring) (s : jstring) : list jstring :=
  match s with
  | [] => [rev cur]
  | c :: s' =>
      if is_space c then
        if insep then split_ws_from true cur s'
        else rev cur :: split_ws_from true [] s'
      else split_ws_from false (c :: cur) s'
  end.

Definition split_ws (s : jstring) : list jstring := split_ws_from false [] s.

End Regex.
Export Regex.

(* ================================================================== *)
(** ** The Slack Web API, as seen by the program *)
(* ================================================================== *)

Module Slack.

(** The fields of a message that the program reads; each may be absent. *)
Record Message := {
  msg_ts : option jstring;
  msg_text : option jstring;
  msg_bot_id : option jstring;
  msg_user : option jstring;
}.

Record Reaction := { reaction_name : option jstring }.

(** [event.item]: only an item of type ["message"] has a channel and a
    timestamp. *)
Inductive Item :=
| ItemMessage (channel ts : jstring)
| ItemFile
| ItemFileComment.

Record ReactionEvent := {
  ev_item : Item;
  ev_reaction : jstring;
  ev_user : jstring;
}.

Record SlashCommand := {
  cmd_text : jstring;
  cmd_user_id : jstring;
  cmd_channel_id : jstring;
}.

(** Every promise the program awaits.  [Respond] is the ephemeral answer to
    the user of a slash command. *)
Inductive ApiCall :=
| Ack
| Respond (text : jstring)
| ConversationsHistory (channel : jstring) (latest : option jstring)
    (inclusive : bool) (limit : nat)
| ConversationsReplies (channel ts : jstring) (limit : nat)
| ConversationsSetTopic (channel topic : jstring)
| ChatPostMessage (channel : jstring) (thread_ts : option jstring) (text : jstring)
| ChatDelete (channel : jstring) (ts : option jstring)
| ReactionsGet (channel timestamp : jstring)
| AuthTest
| AppStart (port_env : option jstring).

(** What the fulfilled promise carries, as far as the program reads it:
    [messages?], [ts?], [message?.reactions?], [bot_id?]. *)
Definition resp (c : ApiCall) : Type :=
  match c with
  | ConversationsHistory _ _ _ _ => option (list Message)
  | ConversationsReplies _ _ _ => option (list Message)
  | ChatPostMessage _ _ _ => option jstring
  | ReactionsGet _ _ => option (option (list Reaction))
  | AuthTest => option jstring
  | _ => unit
  end.

Inductive Error := SlackError (reason : string).

Inductive Settled (T : Type) :=
| Fulfilled (v : T)
| Rejected (e : Error).
Arguments Fulfilled {T} v.
Arguments Rejected {T} e.

(** An answer to whatever call is pending. *)
Definition Answer := forall c : ApiCall, Settled (resp c).

Definition is_post (c : ApiCall) : bool :=
  match c with ChatPostMessage _ _ _ => true | _ => false end.

End Slack.
Export Slack.

(* ================================================================== *)
(** ** Module-level state and the timers of the runtime *)
(* ================================================================== *)

Module State.

(** [interface DeletionTimer] *)
Record DeletionTimer := {
  timeoutId : nat;
  warnTs : option jstring;
}.

(** The variables captured by the callback given to [setTimeout]. *)
Record Closure := {
  cl_channel : jstring;
  cl_ts : jstring;
  cl_key : jstring;
  cl_warn_ts : option jstring;
}.

Record Timeout := { callback : Closure; delay_ms : N }.

Record Store := {
  deletionTimers : gmap jstring DeletionTimer;
  processingReactions : gset jstring;
  myBotId : option jstring;
  (* the runtime: armed timers and the next timeout id *)
  timeouts : gmap nat Timeout;
  next_timeout : nat;
}.

Definition with_deletionTimers (f : gmap jstring DeletionTimer -> gmap jstring DeletionTimer)
  (s : Store) : Store :=
  {| deletionTimers := f (deletionTimers s);
     processingReactions := processingReactions s;
     myBotId := myBotId s;
     timeouts := timeouts s;
     next_timeout := next_timeout s |}.

Definition with_processingReactions (f : gset jstring -> gset jstring) (s : Store) : Store :=
  {| deletionTimers := deletionTimers s;
     processingReactions := f (processingReactions s);
     myBotId := myBotId s;
     timeouts := timeouts s;
     next_timeout := next_timeout s |}.

Definition with_myBotId (b : option jstring) (s : Store) : Store :=
  {| deletionTimers := deletionTimers s;
     processingReactions := processingReactions s;
     myBotId := b;
     timeouts := timeouts s;
     next_timeout := next_timeout s |}.

(** [setTimeout(cb, ms)] arms a timer under a fresh id. *)
Definition arm (cb : Closure) (ms : N) (s : Store) : Store :=
  {| deletionTimers := deletionTimers s;
     processingReactions := processingReactions s;
     myBotId := myBotId s;
     timeouts := <[next_timeout s := {| callback := cb; delay_ms := ms |}]> (timeouts s);
     next_timeout := S (next_timeout s) |}.

(** [clearTimeout(id)], also what the runtime does when the timer fires. *)
Definition disarm (id : nat) (s : Store) : Store :=
  {| deletionTimers := deletionTimers s;
     processingReactions := processingReactions s;
     myBotId := myBotId s;
     timeouts := delete id (timeouts s);
     next_timeout := next_timeout s |}.

Definition initial_store : Store :=
  {| deletionTimers := ∅;
     processingReactions := ∅;
     myBotId := None;
     timeouts := ∅;
     next_timeout := 0 |}.

End State.
Export State.

(* ================================================================== *)
(** ** Asynchronous functions *)
(* ================================================================== *)

Module Async.

(** Abrupt completions of a statement: [throw e] and [return]. *)
Inductive Completion :=
| Throw (e : Error)
| Return.

(** The body of an [async] function.  Between two [Await]s the body runs
    without interruption; at an [Await] the call is issued, other handlers
    may run, and the body resumes with the settled promise. *)
Inductive Async (A : Type) : Type :=
| Ret (a : A)
| Abrupt (c : Completion)
| Get (k : Store -> Async A)
| Put (s : Store) (k : Async A)
| Await (c : ApiCall) (k : Settled (resp c) -> Async A).
Arguments Ret {A} a.
Arguments Abrupt {A} c.
Arguments Get {A} k.
Arguments Put {A} s k.
Arguments Await {A} c k.

Fixpoint bind {A B : Type} (m : Async A) (f : A -> Async B) : Async B :=
  match m with
  | Ret a => f a
  | Abrupt c => Abrupt c
  | Get k => Get (fun s => bind (k s) f)
  | Put s k => Put s (bind k f)
  | Await c k => Await c (fun r => bind (k r) f)
  end.

#[export] Instance Async_ret : MRet Async := fun A a => Ret a.
#[export] Instance Async_bind : MBind Async := fun A B f m => bind m f.

Definition skip : Async unit := Ret tt.
Definition get : Async Store := Get Ret.
Definition modify (f : Store -> Store) : Async unit :=
  Get (fun s => Put (f s) (Ret tt)).
Definition return_ {A : Type} : Async A := Abrupt Return.

(** [await c]: a rejected promise is thrown at the point of the [await]. *)
Definition of_settled {T : Type} (r : Settled T) : Async T :=
  match r with
  | Fulfilled v => Ret v
  | Rejected e => Abrupt (Throw e)
  end.

Definition await (c : ApiCall) : Async (resp c) := Await c of_settled.

(** [try { body } catch (e) { handler e }] *)
Fixpoint try_catch {A : Type} (body : Async A) (handler : Error -> Async A) : Async A :=
  match body with
  | Ret a => Ret a
  | Abrupt (Throw e) => handler e
  | Abrupt Return => Abrupt Return
  | Get k => Get (fun s => try_catch (k s) handler)
  | Put s k => Put s (try_catch k handler)
  | Await c k => Await c (fun r => try_catch (k r) handler)
  end.

(** [try { body } finally { cleanup }]: the cleanup runs after every
    completion of the body, which is then resumed unless the cleanup itself
    completes abruptly. *)
Fixpoint try_finally {A : Type} (body : Async A) (cleanup : Async unit) : Async A :=
  match body with
  | Ret a => bind cleanup (fun _ => Ret a)
  | Abrupt c => bind cleanup (fun _ => Abrupt c)
  | Get k => Get (fun s => try_finally (k s) cleanup)
  | Put s k => Put s (try_finally k cleanup)
  | Await c k => Await c (fun r => try_finally (k r) cleanup)
  end.

(** The boundary of a function: [return] ends the function normally; a
    [throw] that reaches it rejects the promise of the call. *)
Fixpoint function_body (body : Async unit) : Async unit :=
  match body with
  | Ret a => Ret a
  | Abrupt Return => Ret tt
  | Abrupt (Throw e) => Abrupt (Throw e)
  | Get k => Get (fun s => function_body (k s))
  | Put s k => Put s (function_body k)
  | Await c k => Await c (fun r => function_body (k r))
  end.

(** [for (const x of xs) { body x }] *)
Fixpoint for_of {X : Type} (xs : list X) (body : X -> Async unit) : Async unit :=
  match xs with
  | [] => Ret tt
  | x :: xs' => bind (body x) (fun _ => for_of xs' body)
  end.

(** [if (b) { p }] *)
Definition when (b : bool) (p : Async unit) : Async unit :=
  if b then p else Ret tt.

(** *** Running one function against its environment *)

Inductive Outcome (A : Type) :=
| Completed (a : A)
| Abrupted (c : Completion).
Arguments Completed {A} a.
Arguments Abrupted {A} c.

(** What the rest of the world does while the function is suspended at its
    [n]-th [await]: it settles the promise, and other handlers may have
    changed the module-level state in the meantime. *)
Record Env := {
  answer : Answer;
  interfere : Store -> Store;
}.

Record Run (A : Type) := {
  final : Store;
  outcome : Outcome A;
  calls : list ApiCall;               (* the calls issued, in order *)
  writes : list (Store * Store);      (* the state before and after each write *)
  intrusions : list (Store * Store);  (* the state before and after each await *)
}.
Arguments final {A} r.
Arguments outcome {A} r.
Arguments calls {A} r.
Arguments writes {A} r.
Arguments intrusions {A} r.

Definition finished {A : Type} (s : Store) (o : Outcome A) : Run A :=
  {| final := s; outcome := o; calls := []; writes := []; intrusions := [] |}.

Definition written {A : Type} (w : Store * Store) (r : Run A) : Run A :=
  {| final := final r; outcome := outcome r; calls := calls r;
     writes := w :: writes r; intrusions := intrusions r |}.

Definition awaited {A : Type} (c : ApiCall) (i : Store * Store) (r : Run A) : Run A :=
  {| final := final r; outcome := outcome r; calls := c :: calls r;
     writes := writes r; intrusions := i :: intrusions r |}.

Fixpoint run {A : Type} (p : Async A) (env : nat -> Env) (n : nat) (s : Store) : Run A :=
  match p with
  | Ret a => finished s (Completed a)
  | Abrupt c => finished s (Abrupted c)
  | Get k => run (k s) env n s
  | Put s' k => written (s, s') (run k env n s')
  | Await c k =>
      let s' := interfere (env n) s in
      awaited c (s, s') (run (k (answer (env n) c)) env (S n) s')
  end.

(** No other handler runs while this one is suspended. *)
Definition alone (answers : nat -> Answer) : nat -> Env :=
  fun n => {| answer := answers n; interfere := fun s => s |}.

(** *** The event loop: several handlers in flight *)

Inductive Status :=
| Done (o : Outcome unit)
| Pending (c : ApiCall) (k : Settled (resp c) -> Async unit).

(** Run a body up to its next [await]. *)
Fixpoint advance (p : Async unit) (s : Store) : Store * Status :=
  match p with
  | Ret a => (s, Done (Completed a))
  | Abrupt c => (s, Done (Abrupted c))
  | Get k => advance (k s) s
  | Put s' k => advance k s'
  | Await c k => (s, Pending c k)
  end.

Definition pending_call (st : Status) : list ApiCall :=
  match st with
  | Pending c _ => [c]
  | Done _ => []
  end.

Record World := {
  store : Store;
  tasks : list Status;      (* the handler invocations so far, by number *)
  wire : list ApiCall;      (* every call issued so far, in order *)
}.

Definition spawn (p : Async unit) (w : World) : World :=
  let '(s', st) := advance p (store w) in
  {| store := s'; tasks := tasks w ++ [st]; wire := wire w ++ pending_call st |}.

(** The promise awaited by task [i] settles and the task resumes. *)
Definition settle (i : nat) (a : Answer) (w : World) : World :=
  match tasks w !! i with
  | Some (Pending c k) =>
      let '(s', st) := advance (k (a c)) (store w) in
      {| store := s'; tasks := <[i := st]> (tasks w);
         wire := wire w ++ pending_call st |}
  | _ => w
  end.

End Async.
Export Async.

(* ================================================================== *)
(** ** The program *)
(* ================================================================== *)

Module Bot.

Definition nl : jstring := [10%N].

(** *** Constants *)

Definition REACTIONS_COMMENT : jstring := Eval vm_compute in js "speech_balloon".
Definition REACTIONS_APPROVED : jstring := Eval vm_compute in js "white_check_mark".
Definition REACTIONS_MERGED : jstring := Eval vm_compute in js "merged".
Definition REACTIONS_UPDATED : jstring := Eval vm_compute in js "repeat".

Definition mention (id : jstring) : jstring := js "<@" ++ id ++ js ">".

Definition MESSAGES_COMMENT_OWN (authorId reviewerId : jstring) : jstring :=
  js "<@" ++ authorId ++ js ">, a comment or two was left on your PR by <@"
    ++ reviewerId ++ js ">.".
Definition MESSAGES_COMMENT_OTHER : jstring :=
  js "Someone made a comment or two on this PR.".
Definition MESSAGES_APPROVED_OWN (id : jstring) : jstring :=
  js "<@" ++ id ++ js ">, your PR has been approved, time to ship it! :shipit:".
Definition MESSAGES_APPROVED_OTHER : jstring :=
  js "This PR has been approved, time to ship it! :shipit:".
Definition MESSAGES_MERGED_WARNING : jstring :=
  js "This PR entry will be deleted in 30 seconds. Remove the :merged: reaction to cancel.".
Definition MESSAGES_MERGED_WARNING_OWN (id : jstring) : jstring :=
  js "<@" ++ id
    ++ js "> heads up - this PR entry will be deleted in 30 seconds. Remove the :merged: reaction to cancel.".

(** *** Helper: complexity formatting *)

Definition formatComplexity (level : option jstring) : jstring :=
  if negb (truthy level) then js "⚪ *Unknown*"
  else
    let l := toLowerCase (default [] level) in
    if str_eqb l (js "ez") then js ":ez:"
    else if str_eqb l (js "medium") then js "🟨 *Medium*"
    else if str_eqb l (js "large") then js "🟥 *Large*"
    else js "⚪ *Unknown*".

(** *** Helper: parse author from message text *)

(** [/Author:\s*<@([A-Z0-9]+)>/i] *)
Definition author_regex : RegExp :=
  {| ignoreCase := true;
     nodes := lit "Author:" ++ [Star Space] ++ lit "<@"
                ++ [GroupPlus UpperAlnum] ++ lit ">" |}.

Definition getAuthorIdFromText (text : jstring) : option jstring :=
  re_search author_regex text.

(** [/left on your PR by <@([A-Z0-9]+)>/] *)
Definition reviewerRegex : RegExp :=
  {| ignoreCase := false;
     nodes := lit "left on your PR by <@" ++ [GroupPlus UpperAlnum] ++ lit ">" |}.

(** *** Helper: update channel topic *)

Record Counts := { ezCount : nat; mediumCount : nat; largeCount : nat }.

Definition count_message (n : Counts) (msg : Message) : Counts :=
  if truthy (msg_bot_id msg) && truthy (msg_text msg)
     && includes (default [] (msg_text msg)) (js "Complexity:")
  then
    let text := toLowerCase (default [] (msg_text msg)) in
    if includes text (js ":ez:") then
      {| ezCount := S (ezCount n); mediumCount := mediumCount n; largeCount := largeCount n |}
    else if includes text (js "medium") then
      {| ezCount := ezCount n; mediumCount := S (mediumCount n); largeCount := largeCount n |}
    else if includes text (js "large") then
      {| ezCount := ezCount n; mediumCount := mediumCount n; largeCount := S (largeCount n) |}
    else n
  else n.

Definition number (n : nat) : jstring := js (pretty n).

Definition topic_text (n : Counts) : jstring :=
  js "PR Stats: :ez: " ++ number (ezCount n) ++ js " | 🟨 Medium: "
    ++ number (mediumCount n) ++ js " | 🟥 Large: " ++ number (largeCount n).

Definition updateChannelTopic (channelId : jstring) : Async unit :=
  try_catch
    (result ← await (ConversationsHistory channelId None false 100);
     let messages := default [] result in
     let n := foldl count_message
                {| ezCount := 0; mediumCount := 0; largeCount := 0 |} messages in
     await (ConversationsSetTopic channelId (topic_text n)))
    (fun _ => skip).

(** *** Slash command: /pr <url> [complexity] *)

Definition usage_text : jstring :=
  js "Usage: /pr <url> [complexity]" ++ nl ++ js "Example: `/pr https://github.com/... ez`".

(** The text of the announcement. *)
Definition announcement (prUrl user_id complexity : jstring) : jstring :=
  js "Link: <" ++ prUrl ++ js "|Link to PR on GitHub>" ++ nl
    ++ js "Author: <@" ++ user_id ++ js ">" ++ nl
    ++ js "Complexity: " ++ complexity.

Definition pr_command (command : SlashCommand) : Async unit :=
  function_body
    (await Ack;;
     let parts := split_ws (cmd_text command) in
     let prUrl := parts !! 0%nat in
     let complexityRaw := parts !! 1%nat in
     let complexity := formatComplexity complexityRaw in
     when (negb (truthy prUrl)) (await (Respond usage_text);; return_);;
     try_catch
       (await (ChatPostMessage (cmd_channel_id command) None
                 (announcement (default [] prUrl) (cmd_user_id command) complexity));;
        updateChannelTopic (cmd_channel_id command))
       (fun _ => await (Respond (js "Error: Failed to post PR.")))).

(** *** Registries *)

Definition key_of (channel ts : jstring) : jstring := channel ++ js ":" ++ ts.

(** [processingReactions.add(key)], [.delete(key)], [.has(key)] *)
Definition processing_add (key : jstring) : Async unit :=
  modify (with_processingReactions (fun g => {[key]} ∪ g)).
Definition processing_delete (key : jstring) : Async unit :=
  modify (with_processingReactions (fun g => g ∖ {[key]})).
Definition processing_has (key : jstring) (s : Store) : bool :=
  bool_decide (key ∈ processingReactions s).

(** [deletionTimers.has(key)], [.set(key, v)], [.delete(key)] *)
Definition timers_has (key : jstring) (s : Store) : bool :=
  bool_decide (is_Some (deletionTimers s !! key)).
Definition timers_set (key : jstring) (t : DeletionTimer) : Async unit :=
  modify (with_deletionTimers (fun m => <[key := t]> m)).
Definition timers_delete (key : jstring) : Async unit :=
  modify (with_deletionTimers (fun m => delete key m)).

Definition setTimeout (cb : Closure) (ms : N) : Async nat :=
  Get (fun s => Put (arm cb ms s) (Ret (next_timeout s))).
Definition clearTimeout (id : nat) : Async unit := modify (disarm id).

(** *** The callback given to [setTimeout]: delayed deletion *)

Definition still_has_merged (info : option (option (list Reaction))) : bool :=
  let reactions := default [] (default None info) in
  existsb (fun r => opt_eqb (reaction_name r) (Some REACTIONS_MERGED)) reactions.

Definition delete_reply (channel ts : jstring) (msg : Message) : Async unit :=
  if opt_eqb (msg_ts msg) (Some ts) then skip   (* continue: the parent is deleted last *)
  else
    s ← get;
    when (opt_eqb (msg_bot_id msg) (myBotId s) || opt_eqb (msg_user msg) (myBotId s))
      (try_catch (await (ChatDelete channel (msg_ts msg))) (fun _ => skip)).

Definition delayed_deletion (cl : Closure) : Async unit :=
  let channel := cl_channel cl in
  let ts := cl_ts cl in
  function_body
    (try_finally
       (try_catch
          ((* re-verify reaction presence *)
           reactionsInfo ← await (ReactionsGet channel ts);
           when (negb (still_has_merged reactionsInfo))
             (try_catch
                (when (truthy (cl_warn_ts cl))
                   (await (ChatDelete channel (cl_warn_ts cl))))
                (fun _ => skip);;
              return_);;
           (* safe thread cleanup *)
           try_catch
             (replies ← await (ConversationsReplies channel ts 100);
              let messages := default [] replies in
              for_of messages (delete_reply channel ts))
             (fun _ => skip);;
           (* delete the parent message *)
           await (ChatDelete channel (Some ts));;
           when (truthy (cl_warn_ts cl))
             (try_catch (await (ChatDelete channel (cl_warn_ts cl))) (fun _ => skip)))
          (fun _ => skip))
       (timers_delete (cl_key cl))).

(** *** Reaction added *)

(** [history.messages?.[0]] *)
Definition first_message (messages : option (list Message)) : option Message :=
  match messages with
  | Some (m :: _) => Some m
  | _ => None
  end.

(** [reviewers.add(id)] on a [Set], which iterates in insertion order. *)
Definition set_add (id : jstring) (set : list jstring) : list jstring :=
  if bool_decide (id ∈ set) then set else set ++ [id].

Definition collect_reviewer (reviewers : list jstring) (msg : Message) : list jstring :=
  match msg_text msg ≫= re_search reviewerRegex with
  | Some id => set_add id reviewers
  | None => reviewers
  end.

Definition on_comment (event : ReactionEvent) (channel ts : jstring)
    (authorId : option jstring) : Async unit :=
  let reviewerId := ev_user event in
  let text :=
    if truthy authorId then MESSAGES_COMMENT_OWN (default [] authorId) reviewerId
    else MESSAGES_COMMENT_OTHER in
  await (ChatPostMessage channel (Some ts) text);;
  return_.

Definition on_approved (channel ts : jstring) (authorId : option jstring) : Async unit :=
  let text :=
    if truthy authorId then MESSAGES_APPROVED_OWN (default [] authorId)
    else MESSAGES_APPROVED_OTHER in
  await (ChatPostMessage channel (Some ts) text);;
  return_.

Definition on_updated (channel ts : jstring) : Async unit :=
  replies ← await (ConversationsReplies channel ts 100);
  let reviewers := foldl collect_reviewer [] (default [] replies) in
  when (bool_decide (length reviewers = 0))
    (await (ChatPostMessage channel (Some ts)
              (js "Updates were made, but no reviewers were detected."));;
     return_);;
  let mentions := join (js " ") (map mention reviewers) in
  await (ChatPostMessage channel (Some ts)
           (mentions ++ js " - The PR author has updated the PR - please review again"));;
  return_.

Definition on_merged (channel ts key : jstring) (authorId : option jstring) : Async unit :=
  (* was the deletion cancelled while the history was fetched? *)
  s ← get;
  when (negb (processing_has key s)) return_;;
  (* already scheduled? *)
  s ← get;
  when (timers_has key s) return_;;
  let warnText :=
    if truthy authorId then MESSAGES_MERGED_WARNING_OWN (default [] authorId)
    else MESSAGES_MERGED_WARNING in
  warnMsg ← await (ChatPostMessage channel (Some ts) warnText);
  timeoutId ← setTimeout
    {| cl_channel := channel; cl_ts := ts; cl_key := key; cl_warn_ts := warnMsg |}
    30000%N;
  timers_set key {| timeoutId := timeoutId; warnTs := warnMsg |}.

(** What the handler does with the fetched history. *)
Definition dispatch (event : ReactionEvent) (channel ts key : jstring)
    (history : option (list Message)) : Async unit :=
  let message := first_message history in
  (* only react to our own messages *)
  s ← get;
  match message with
  | None => return_
  | Some message =>
      when (negb (opt_eqb (msg_bot_id message) (myBotId s))) return_;;
      let authorId := getAuthorIdFromText (or_else (msg_text message) []) in
      when (str_eqb (ev_reaction event) REACTIONS_COMMENT)
        (on_comment event channel ts authorId);;
      when (str_eqb (ev_reaction event) REACTIONS_APPROVED)
        (on_approved channel ts authorId);;
      when (str_eqb (ev_reaction event) REACTIONS_UPDATED)
        (on_updated channel ts);;
      when (str_eqb (ev_reaction event) REACTIONS_MERGED)
        (on_merged channel ts key authorId)
  end.

Definition reaction_added (event : ReactionEvent) : Async unit :=
  function_body
    (try_catch
       (match ev_item event with
        | ItemMessage channel ts =>
            let key := key_of channel ts in
            (* mark as processing *)
            processing_add key;;
            try_finally
              (history ← await (ConversationsHistory channel (Some ts) true 1);
               dispatch event channel ts key history)
              (* done processing this event *)
              (processing_delete key)
        | _ => return_
        end)
       (fun _ =>
          match ev_item event with
          | ItemMessage channel ts => processing_delete (key_of channel ts)
          | _ => skip
          end)).

(** *** Reaction removed: cancel deletion *)

Definition reaction_removed (event : ReactionEvent) : Async unit :=
  function_body
    (try_catch
       (when (negb (str_eqb (ev_reaction event) REACTIONS_MERGED)) return_;;
        match ev_item event with
        | ItemMessage channel ts =>
            let key := key_of channel ts in
            (* 1. are we currently setting it up? *)
            s ← get;
            when (processing_has key s) (processing_delete key;; return_);;
            (* 2. does a timer exist? *)
            s ← get;
            match deletionTimers s !! key with
            | None => return_
            | Some timerData =>
                clearTimeout (timeoutId timerData);;
                timers_delete key;;
                when (truthy (warnTs timerData))
                  (try_catch (await (ChatDelete channel (warnTs timerData)))
                     (fun _ => skip))
            end
        | _ => return_
        end)
       (fun _ => skip)).

(** *** Start server *)

(** The outcome of loading the module. *)
Inductive Startup :=
| Exit (code : nat)                               (* process.exit(code) *)
| Serve (signingSecret : jstring) (token : option jstring) (boot : Async unit).

(** [dotenv.config()] adds the variables of the [.env] file that the process
    environment does not define. *)
Definition dotenv_config (file env : gmap string jstring) : gmap string jstring :=
  env ∪ file.

(** The body of the final [(async () => { ... })()].  The port
    [Number(process.env.PORT) || 3000] is a floating-point computation and
    is left to the callee, which is given the raw variable. *)
Definition start_server (port_env : option jstring) : Async unit :=
  function_body
    (await (AppStart port_env);;
     try_catch
       (auth ← await AuthTest;
        modify (with_myBotId auth))
       (fun _ => skip)).

(** Loading the module with process environment [env] and [.env] file
    [file]. *)
Definition load_module (env file : gmap string jstring) : Startup :=
  if negb (truthy (env !! "SLACK_BOT_TOKEN"%string))
     || negb (truthy (env !! "SLACK_SIGNING_SECRET"%string))
  then Exit 1
  else
    let env := dotenv_config file env in
    Serve (or_else (env !! "SLACK_SIGNING_SECRET"%string) [])
          (env !! "SLACK_BOT_TOKEN"%string)
          (start_server (env !! "PORT"%string)).

End Bot.
Export Bot.

(* ================================================================== *)
(** ** The earlier variant

    [src/index.ts] maps three reactions; its handlers are those of [Bot]
    without the [repeat] branch, the channel topic and the check of the
    environment.  These are the texts in which it differs. *)
(* ================================================================== *)

Module Earlier.

Definition MESSAGES_COMMENT_OWN (id : jstring) : jstring :=
  js "<@" ++ id ++ js ">, someone made a comment or two on your PR.".
Definition MESSAGES_APPROVED_OWN (id : jstring) : jstring :=
  js "<@" ++ id ++ js ">, your PR has been approved, time to ship it!".
Definition MESSAGES_APPROVED_OTHER : jstring :=
  js "This PR has been approved, time to ship it!".

Definition formatComplexity (level : option jstring) : jstring :=
  if negb (truthy level) then js "⚪ *Unknown*"
  else
    let l := toLowerCase (default [] level) in
    if str_eqb l (js "small") then js "🟩 *Small*"
    else if str_eqb l (js "medium") then js "🟨 *Medium*"
    else if str_eqb l (js "large") then js "🟥 *Large*"
    else js "⚪ *Unknown*".

Definition announcement (prUrl user_id complexity : jstring) : jstring :=
  js "We have a new PR!" ++ nl ++ nl
    ++ js "Author: <@" ++ user_id ++ js ">" ++ nl
    ++ js "Complexity: " ++ complexity ++ nl
    ++ js "Link: " ++ prUrl.

End Earlier.

(* ================================================================== *)
(** ** The event loop of the running bot *)
(* ================================================================== *)

Module Loop.

Inductive Tick :=
| ReactionAdded (event : ReactionEvent)     (* Slack delivers reaction_added *)
| ReactionRemoved (event : ReactionEvent)   (* Slack delivers reaction_removed *)
| SlashPr (command : SlashCommand)          (* a user runs /pr *)
| Settle (task : nat) (a : Answer)          (* an awaited promise settles *)
| Fire (id : nat).                          (* the delay of a timer has elapsed *)

Definition fire (id : nat) (w : World) : World :=
  match timeouts (store w) !! id with
  | Some t =>
      spawn (delayed_deletion (callback t))
        {| store := disarm id (store w); tasks := tasks w; wire := wire w |}
  | None => w
  end.

Definition tick (w : World) (t : Tick) : World :=
  match t with
  | ReactionAdded event => spawn (reaction_added event) w
  | ReactionRemoved event => spawn (reaction_removed event) w
  | SlashPr command => spawn (pr_command command) w
  | Settle i a => settle i a w
  | Fire id => fire id w
  end.

Definition play (ticks : list Tick) (w : World) : World := foldl tick w ticks.

Definition boot (s : Store) : World := {| store := s; tasks := []; wire := [] |}.

End Loop.
Export Loop.

(* ================================================================== *)
(** ** Vocabulary of the statements *)
(* ================================================================== *)

Module Vocabulary.

(** *** Text *)

Definition node_atom (n : Node) : Atom :=
  match n with
  | One a | Star a | GroupPlus a => a
  end.

(** No atom of the pattern accepts the code unit [b]. *)
Definition stops_at (i : bool) (b : N) (re : list Node) : bool :=
  forallb (fun n => negb (atom_match i (node_atom n) b)) re.

Definition is_group (n : Node) : bool :=
  match n with
  | GroupPlus _ => true
  | _ => false
  end.

(** [level] is the word [word] in some casing: letter by letter, the same
    letter or its upper case. *)
Definition casing_of (word level : jstring) : Prop :=
  Forall2 (λ c m, c = m ∨ c = upper_unit m) level word.

(** *** One function against its environment *)

(** Every write that [p] can perform, started in state [s] and resumed in
    any state after each [await], relates the state before and after by
    [R]. *)
Fixpoint writes_only {A : Type} (R : Store → Store → Prop) (p : Async A) (s : Store) : Prop :=
  match p with
  | Ret _ | Abrupt _ => True
  | Get k => writes_only R (k s) s
  | Put s' k => R s s' ∧ writes_only R k s'
  | Await _ k => ∀ r s', writes_only R (k r) s'
  end.

(** The write leaves the in-flight guard as it is. *)
Definition same_guard (before after : Store) : Prop :=
  processingReactions after = processingReactions before.

(** The number of steps, each given by the state before and after it, that
    take [key] out of the in-flight guard. *)
Definition releases (key : jstring) (ws : list (Store * Store)) : nat :=
  length (filter (λ w, key ∈ processingReactions w.1 ∧ key ∉ processingReactions w.2) ws).

(** The other handlers never take [key] out of the guard. *)
Definition keeps (key : jstring) (env : nat → Env) : Prop :=
  ∀ n s, key ∈ processingReactions s → key ∈ processingReactions (interfere (env n) s).

(** The other handlers never put [key] in the guard: no other
    [reaction_added] for the same message starts meanwhile. *)
Definition never_adds (key : jstring) (env : nat → Env) : Prop :=
  ∀ n s, key ∉ processingReactions s → key ∉ processingReactions (interfere (env n) s).

(** The shape of [reaction_added] once the key is in the guard: the inner
    [try]/[finally] inside the outer [try]/[catch]. *)
Definition guarded (key : jstring) (body : Async unit) : Async unit :=
  function_body
    (try_catch (try_finally body (processing_delete key))
       (λ _, processing_delete key)).

(** *** Handlers in the event loop *)

Definition reaction_on (channel ts reaction user : jstring) : ReactionEvent :=
  {| ev_item := ItemMessage channel ts; ev_reaction := reaction; ev_user := user |}.

(** The fetch of the message reacted to. *)
Definition fetch (channel ts : jstring) : ApiCall :=
  ConversationsHistory channel (Some ts) true 1.

(** The [reaction_added] handler while it awaits the history. *)
Definition in_flight (event : ReactionEvent) (channel ts : jstring)
    (r : Settled (option (list Message))) : Async unit :=
  guarded (key_of channel ts)
    (of_settled r ≫= dispatch event channel ts (key_of channel ts)).

(** Between [s] and [s'] neither the deletion timers, nor the timers of the
    runtime, nor the bot identity have changed. *)
Definition settled_quietly (s s' : Store) : Prop :=
  deletionTimers s' = deletionTimers s
  ∧ timeouts s' = timeouts s
  ∧ next_timeout s' = next_timeout s
  ∧ myBotId s' = myBotId s.

(** *** Start-up *)

(** [Boolean(process.env[name])], as the program logs it at start-up. *)
Definition has_secret (env : gmap string jstring) (name : string) : bool :=
  truthy (env !! name).

(** *** Concrete inputs *)

(** Slack answers every call with success. *)
Definition slack (messages : option (list Message)) (posted : option jstring)
    (reactions : option (option (list Reaction))) (bot : option jstring) : Answer :=
  fun c =>
    match c return Settled (resp c) with
    | ConversationsHistory _ _ _ _ => Fulfilled messages
    | ConversationsReplies _ _ _ => Fulfilled messages
    | ChatPostMessage _ _ _ => Fulfilled posted
    | ReactionsGet _ _ => Fulfilled reactions
    | AuthTest => Fulfilled bot
    | Ack | Respond _ | ConversationsSetTopic _ _ | ChatDelete _ _ | AppStart _ =>
        Fulfilled tt
    end.

(** The server comes up but [auth.test] fails. *)
Definition auth_outage : Answer :=
  fun c =>
    match c return Settled (resp c) with
    | AuthTest => Rejected (SlackError "invalid_auth")
    | c' => slack None None None None c'
    end.

Definition C0 : jstring := Eval vm_compute in js "C42".
Definition T0 : jstring := Eval vm_compute in js "1700000000.000100".
Definition W0 : jstring := Eval vm_compute in js "1700000000.000200".
Definition B0 : jstring := Eval vm_compute in js "B01".
Definition U1 : jstring := Eval vm_compute in js "U1".
Definition U2 : jstring := Eval vm_compute in js "U2".

(** The state of a bot whose identity is [B0]. *)
Definition bot_store : Store := with_myBotId (Some B0) initial_store.

(** The announcement of [/pr prUrl level] by [user], as Slack stores it. *)
Definition announced (prUrl user level : string) : Message :=
  {| msg_ts := Some T0;
     msg_text := Some (announcement (js prUrl) (js user)
                         (formatComplexity (Some (js level))));
     msg_bot_id := Some B0;
     msg_user := None |}.

(** A message written by a person. *)
Definition note : Message :=
  {| msg_ts := Some T0; msg_text := Some (js "lunch?");
     msg_bot_id := None; msg_user := Some (js "U7") |}.

(** A deletion is pending on [(C0, T0)]: timer 0 is armed. *)
Definition pending_store : Store :=
  with_deletionTimers
    (λ m, <[key_of C0 T0 := {| timeoutId := 0; warnTs := Some W0 |}]> m)
    (arm {| cl_channel := C0; cl_ts := T0; cl_key := key_of C0 T0;
            cl_warn_ts := Some W0 |} 30000%N bot_store).

(** The thread under an announcement: the announcement itself, a
    notification of the bot and a reply of a person. *)
Definition thread : list Message :=
  [ announced "https://github.com/x/y/pull/1" "U1" "large";
    {| msg_ts := Some (js "1700000000.000150");
       msg_text := Some (MESSAGES_APPROVED_OWN U1);
       msg_bot_id := Some B0; msg_user := None |};
    {| msg_ts := Some (js "1700000000.000160");
       msg_text := Some (js "thanks!");
       msg_bot_id := None; msg_user := Some U1 |} ].

(** Slack as it answers in [thread], the [merged] reaction being present. *)
Definition in_thread : Answer :=
  slack (Some thread) (Some W0)
    (Some (Some [{| reaction_name := Some REACTIONS_MERGED |}])) (Some B0).

(** A process environment with both secrets. *)
Definition configured : gmap string jstring :=
  <["SLACK_BOT_TOKEN"%string := js "xoxb-1"]>
    {["SLACK_SIGNING_SECRET"%string := js "shh"]}.

End Vocabulary.
Export Vocabulary.

#[global] Arguments str_eqb : simpl never.
#[global] Arguments opt_eqb : simpl never.
#[global] Arguments processing_has : simpl never.
#[global] Arguments timers_has : simpl never.
#[global] Arguments getAuthorIdFromText : simpl never.

(* ================================================================== *)
(** ** Vocabulary of the further properties *)
(* ================================================================== *)

Module Patterns.

(** A Basic Latin letter or digit. *)
Definition is_alnum (c : N) : bool := is_ascii_upper c || is_ascii_lower c || is_digit c.

(** What [[A-Z0-9]] accepts when case is not ignored. *)
Definition is_upper_alnum (c : N) : bool := is_ascii_upper c || is_digit c.

(** The pattern that matches the code units of [w], one by one. *)
Definition word (w : jstring) : list Node := map (λ c, One (Chr c)) w.

Definition no_space (s : jstring) : Prop := Forall (λ c, is_space c = false) s.


End Patterns.
Export Patterns.

Module Composition.

(** The statement that completes as [o] did. *)
Definition stub {A : Type} (o : Outcome A) : Async A :=
  match o with
  | Completed a => Ret a
  | Abrupted c => Abrupt c
  end.

(** [r1] followed by [r2]. *)
Definition seq_run {A B : Type} (r1 : Run A) (r2 : Run B) : Run B :=
  {| final := final r2; outcome := outcome r2;
     calls := calls r1 ++ calls r2;
     writes := writes r1 ++ writes r2;
     intrusions := intrusions r1 ++ intrusions r2 |}.

(** A statement context: it leaves reads, writes and awaits of the
    statement in its hole where they are. *)
Class Homomorphic {A B : Type} (C : Async A → Async B) : Prop := {
  hom_get (k : Store → Async A) : C (Get k) = Get (λ s, C (k s));
  hom_put (s : Store) (k : Async A) : C (Put s k) = Put s (C k);
  hom_await (c : ApiCall) (k : Settled (resp c) → Async A) :
    C (Await c k) = Await c (λ r, C (k r));
}.

(** Every call that [p] can issue satisfies [P]. *)
Fixpoint calls_only {A : Type} (P : ApiCall → Prop) (p : Async A) : Prop :=
  match p with
  | Ret _ | Abrupt _ => True
  | Get k => ∀ s, calls_only P (k s)
  | Put _ k => calls_only P k
  | Await c k => P c ∧ ∀ r, calls_only P (k r)
  end.

(** [p] issues at most [b] calls of the kind [f]. *)
Fixpoint issues_at_most {A : Type} (f : ApiCall → bool) (b : nat) (p : Async A) : Prop :=
  match p with
  | Ret _ | Abrupt _ => True
  | Get k => ∀ s, issues_at_most f b (k s)
  | Put _ k => issues_at_most f b k
  | Await c k =>
      if f c then
        match b with
        | O => False
        | S b' => ∀ r, issues_at_most f b' (k r)
        end
      else ∀ r, issues_at_most f b (k r)
  end.

Definition any_call (c : ApiCall) : bool := true.

Definition fulfilled {T : Type} (r : Settled T) : bool :=
  match r with Fulfilled _ => true | Rejected _ => false end.

(** The write that never happens. *)
Definition no_write (before after : Store) : Prop := False.

(** A write that registers nothing: the guard, the deletion timers and the
    armed timers can only lose members, the identity stays. *)
Definition shrinks (before after : Store) : Prop :=
  processingReactions after ⊆ processingReactions before
  ∧ deletionTimers after ⊆ deletionTimers before
  ∧ timeouts after ⊆ timeouts before
  ∧ myBotId after = myBotId before.

(** The other handlers leave the recorded identity as it is. *)
Definition identity_stable (env : nat → Env) : Prop :=
  ∀ n s, myBotId (interfere (env n) s) = myBotId s.

End Composition.
Export Composition.

Module Cleanup.

(** The replies that the cleanup loop deletes: not the parent, and written
    by the recorded identity. *)
Definition own_reply (bot : option jstring) (ts : jstring) (msg : Message) : bool :=
  negb (opt_eqb (msg_ts msg) (Some ts))
  && (opt_eqb (msg_bot_id msg) bot || opt_eqb (msg_user msg) bot).

Definition delete_of (channel : jstring) (msg : Message) : ApiCall :=
  ChatDelete channel (msg_ts msg).

(** The [try]/[catch]/[finally] around the deferred task. *)
Definition deletion_frame (cl : Closure) (p : Async unit) : Async unit :=
  function_body
    (try_finally (try_catch p (λ _, skip)) (timers_delete (cl_key cl))).

(** The deferred task after the thread cleanup. *)
Definition delete_anchor (cl : Closure) : Async unit :=
  await (ChatDelete (cl_channel cl) (Some (cl_ts cl)));;
  when (truthy (cl_warn_ts cl))
    (try_catch (await (ChatDelete (cl_channel cl) (cl_warn_ts cl))) (λ _, skip)).

(** The deferred task around its thread cleanup. *)
Definition cleanup_frame (cl : Closure) (p : Async unit) : Async unit :=
  deletion_frame cl (try_catch p (λ _, skip);; delete_anchor cl).

(** The messages of a settled [conversations.replies]. *)
Definition replies_of (r : Settled (option (list Message))) : list Message :=
  match r with
  | Fulfilled replies => default [] replies
  | Rejected _ => []
  end.

(** What the deferred task may call: the reactions and the replies of its
    message, and deletes in its channel. *)
Definition cleans (cl : Closure) (c : ApiCall) : Prop :=
  c = ReactionsGet (cl_channel cl) (cl_ts cl)
  ∨ c = ConversationsReplies (cl_channel cl) (cl_ts cl) 100
  ∨ ∃ ts, c = ChatDelete (cl_channel cl) ts.

(** What [reaction_added] may call: the fetch of the message reacted to,
    the replies under it, and a post in its thread. *)
Definition concerns_thread (channel ts : jstring) (c : ApiCall) : Prop :=
  c = fetch channel ts
  ∨ c = ConversationsReplies channel ts 100
  ∨ ∃ text, c = ChatPostMessage channel (Some ts) text.

Definition deletes_in (channel : jstring) (c : ApiCall) : Prop :=
  ∃ ts, c = ChatDelete channel ts.

End Cleanup.
Export Cleanup.

Module Replies.

(** The text of the warning posted for [author]. *)
Definition warning_for (author : option jstring) : jstring :=
  if truthy author then MESSAGES_MERGED_WARNING_OWN (default [] author)
  else MESSAGES_MERGED_WARNING.

(** The text of the approval posted for [author]. *)
Definition approval_for (author : option jstring) : jstring :=
  if truthy author then MESSAGES_APPROVED_OWN (default [] author)
  else MESSAGES_APPROVED_OTHER.


(** The guard without [key]. *)
Definition released (key : jstring) (s : Store) : Store :=
  with_processingReactions (λ g : gset jstring, g ∖ {[key]}) s.

(** [s] after the timer for [(channel, ts)] is armed and recorded. *)
Definition scheduled (channel ts : jstring) (warn : option jstring) (s : Store) : Store :=
  with_deletionTimers
    (λ m, <[key_of channel ts := {| timeoutId := next_timeout s; warnTs := warn |}]> m)
    (arm {| cl_channel := channel; cl_ts := ts; cl_key := key_of channel ts;
            cl_warn_ts := warn |} 30000%N s).

(** A reaction that the program maps to no action. *)
Definition unmapped (reaction : jstring) : Prop :=
  reaction ≠ REACTIONS_COMMENT ∧ reaction ≠ REACTIONS_APPROVED
  ∧ reaction ≠ REACTIONS_UPDATED ∧ reaction ≠ REACTIONS_MERGED.

End Replies.
Export Replies.

Module Commands.

Definition no_counts : Counts := {| ezCount := 0; mediumCount := 0; largeCount := 0 |}.

(** The messages counted in a topic. *)
Definition counted (n : Counts) : nat := ezCount n + mediumCount n + largeCount n.

(** The topic written after the messages of a settled history. *)
Definition topic_of (result : option (list Message)) : jstring :=
  topic_text (foldl count_message no_counts (default [] result)).

(** [command.text] has no first word: it is empty or begins with white
    space. *)
Definition no_first_word (text : jstring) : Prop :=
  text = [] ∨ ∃ c rest, text = c :: rest ∧ is_space c = true.

(** [process.env.PORT] after [dotenv.config()]. *)
Definition port_of (env file : gmap string jstring) : option jstring :=
  match env !! "PORT"%string with
  | Some p => Some p
  | None => file !! "PORT"%string
  end.

End Commands.
Export Commands.

(** The handlers of [src/index.ts] where they differ from [Bot]; its
    [reaction_removed], its deferred deletion, its merge branch and its
    boot sequence are, statement by statement, those of [Bot]. *)
Module EarlierBot.

Definition usage_text : jstring :=
  js "Usage: /pr <url> [complexity]" ++ nl
    ++ js "Example: `/pr https://github.com/... small`".

Definition posted_text (channel : jstring) : jstring :=
  js "Posted PR to <#" ++ channel ++ js ">".

Definition pr_command (command : SlashCommand) : Async unit :=
  function_body
    (await Ack;;
     let parts := split_ws (cmd_text command) in
     let prUrl := parts !! 0%nat in
     let complexityRaw := parts !! 1%nat in
     let complexity := Earlier.formatComplexity complexityRaw in
     when (negb (truthy prUrl)) (await (Respond usage_text);; return_);;
     try_catch
       (await (ChatPostMessage (cmd_channel_id command) None
                 (Earlier.announcement (default [] prUrl) (cmd_user_id command)
                    complexity));;
        await (Respond (posted_text (cmd_channel_id command))))
       (fun _ => await (Respond (js "Error: Failed to post PR.")))).

Definition on_comment (channel ts : jstring) (authorId : option jstring) : Async unit :=
  let text :=
    if truthy authorId then Earlier.MESSAGES_COMMENT_OWN (default [] authorId)
    else MESSAGES_COMMENT_OTHER in
  await (ChatPostMessage channel (Some ts) text);;
  return_.

Definition on_approved (channel ts : jstring) (authorId : option jstring) : Async unit :=
  let text :=
    if truthy authorId then Earlier.MESSAGES_APPROVED_OWN (default [] authorId)
    else Earlier.MESSAGES_APPROVED_OTHER in
  await (ChatPostMessage channel (Some ts) text);;
  return_.

Definition dispatch (event : ReactionEvent) (channel ts key : jstring)
    (history : option (list Message)) : Async unit :=
  let message := first_message history in
  s ← get;
  match message with
  | None => return_
  | Some message =>
      when (negb (opt_eqb (msg_bot_id message) (myBotId s))) return_;;
      let authorId := getAuthorIdFromText (or_else (msg_text message) []) in
      when (str_eqb (ev_reaction event) REACTIONS_COMMENT)
        (on_comment channel ts authorId);;
      when (str_eqb (ev_reaction event) REACTIONS_APPROVED)
        (on_approved channel ts authorId);;
      when (str_eqb (ev_reaction event) REACTIONS_MERGED)
        (on_merged channel ts key authorId)
  end.

Definition reaction_added (event : ReactionEvent) : Async unit :=
  function_body
    (try_catch
       (match ev_item event with
        | ItemMessage channel ts =>
            let key := key_of channel ts in
            processing_add key;;
            try_finally
              (history ← await (ConversationsHistory channel (Some ts) true 1);
               dispatch event channel ts key history)
              (processing_delete key)
        | _ => return_
        end)
       (fun _ =>
          match ev_item event with
          | ItemMessage channel ts => processing_delete (key_of channel ts)
          | _ => skip
          end)).

(** Loading [src/index.ts]: [dotenv.config()] comes first and nothing is
    checked; the receiver and the app are constructed with what the
    environment then holds, and the boot sequence is that of [Bot]. *)
Definition load_module (env file : gmap string jstring) : Startup :=
  let env := dotenv_config file env in
  Serve (or_else (env !! "SLACK_SIGNING_SECRET"%string) [])
        (env !! "SLACK_BOT_TOKEN"%string)
        (start_server (env !! "PORT"%string)).

End EarlierBot.

Module Inputs.

(** Slack rejects every call. *)
Definition slack_down : Answer := fun c => Rejected (SlackError "service_unavailable").

Definition EYES : jstring := Eval vm_compute in js "eyes".

(** The announcement of a large PR by [U1]. *)
Definition anchor : Message := announced "https://github.com/x/y/pull/1" "U1" "large".

(** A message of the bot that names no author. *)
Definition bot_note : Message :=
  {| msg_ts := Some T0; msg_text := Some (js "Deploy finished.");
     msg_bot_id := Some B0; msg_user := None |}.


(** The closure of the timer armed in [pending_store]. *)
Definition armed : Closure :=
  {| cl_channel := C0; cl_ts := T0; cl_key := key_of C0 T0; cl_warn_ts := Some W0 |}.

Definition W1 : jstring := Eval vm_compute in js "1700000000.000300".

(** Slack answers with [anchor] and posts under [W1]. *)
Definition found_anchor_again : Answer := slack (Some [anchor]) (Some W1) None None.

(** The announcement of the same PR as the earlier variant posts it. *)
Definition earlier_anchor : Message :=
  {| msg_ts := Some T0;
     msg_text := Some (Earlier.announcement (js "https://github.com/x/y/pull/1") U1
                         (Earlier.formatComplexity (Some (js "large"))));
     msg_bot_id := Some B0;
     msg_user := None |}.

(** Slack answers with [anchor] and posts under [W0]. *)
Definition found_anchor : Answer := slack (Some [anchor]) (Some W0) None None.

End Inputs.
Export Inputs.

(* ================================================================== *)
(** ** Properties of the text conventions *)
(* ================================================================== *)

Module TextFacts.

Local Open Scope N_scope.

(** A match cannot run through a code unit that no atom accepts: if the
    pattern fails on [u] alone, it fails on [u] followed by [b]. *)
Lemma match_here_cut (i : bool) (b : N) (re : list Node) :
  stops_at i b re = true →
  ∀ (cap u rest : jstring),
    match_here i re cap u = None →
    match_here i re cap (u ++ b :: rest) = None.
Proof.
  induction re as [|node re IH]; intros Hstop cap u rest Hu.
  - discriminate.
  - simpl in Hstop. apply andb_true_iff in Hstop as [Hb Hstop].
    apply negb_true_iff in Hb. specialize (IH Hstop).
    destruct node as [a|a|a]; simpl in Hb.
    + destruct u as [|c u]; simpl in *.
      * by rewrite Hb.
      * destruct (atom_match i a c); [by apply IH | done].
    + revert Hu. simpl. induction u as [|c u IHu]; simpl; intros Hu.
      * rewrite Hb. by apply (IH cap []).
      * destruct (atom_match i a c).
        -- match type of Hu with
           | match ?x with _ => _ end = _ => destruct x eqn:Hstar; [done|]
           end.
           rewrite (IHu eq_refl). by apply (IH cap (c :: u)).
        -- by apply (IH cap (c :: u)).
    + destruct u as [|c u]; simpl in *; [by rewrite Hb|].
      destruct (atom_match i a c); [|done].
      revert Hu. generalize [c] as acc. induction u as [|d u IHu]; simpl; intros acc Hu.
      * rewrite Hb. by apply (IH acc []).
      * destruct (atom_match i a d).
        -- match type of Hu with
           | match ?x with _ => _ end = _ => destruct x eqn:Hplus; [done|]
           end.
           rewrite (IHu _ Hplus). by apply (IH acc (d :: u)).
        -- by apply (IH acc (d :: u)).
Qed.

(** If the pattern occurs nowhere in [u], a search in [u ++ b :: rest]
    finds what a search in [b :: rest] finds. *)
Lemma re_search_nodes_cut (i : bool) (b : N) (re : list Node) (u rest : jstring) :
  stops_at i b re = true →
  re_search_nodes i re u = None →
  re_search_nodes i re (u ++ b :: rest) = re_search_nodes i re (b :: rest).
Proof.
  intros Hstop. induction u as [|c u IHu]; intros Hu; [done|].
  simpl in Hu. destruct (match_here i re [] (c :: u)) eqn:Hc; [done|].
  change ((c :: u) ++ b :: rest) with (c :: (u ++ b :: rest)).
  cbn [re_search_nodes].
  change (c :: (u ++ b :: rest)) with ((c :: u) ++ b :: rest) at 1.
  rewrite (match_here_cut i b re Hstop [] (c :: u) rest Hc).
  by apply IHu.
Qed.

Lemma casing_of_medium_inv (level : jstring) :
  casing_of (js "medium") level →
  ∃ c1 c2 c3 c4 c5 c6,
    level = [c1; c2; c3; c4; c5; c6]
    ∧ (c1 = 109 ∨ c1 = 77) ∧ (c2 = 101 ∨ c2 = 69) ∧ (c3 = 100 ∨ c3 = 68)
    ∧ (c4 = 105 ∨ c4 = 73) ∧ (c5 = 117 ∨ c5 = 85) ∧ (c6 = 109 ∨ c6 = 77).
Proof.
  unfold casing_of. change (js "medium") with [109; 101; 100; 105; 117; 109]%N.
  intros H.
  repeat match goal with
         | H : Forall2 _ _ (_ :: _) |- _ => apply Forall2_cons_inv_r in H as (? & ? & ? & H & ->)
         | H : Forall2 _ _ [] |- _ => apply Forall2_nil_inv_r in H as ->
         end.
  eauto 15.
Qed.

Lemma toLowerCase_medium (level : jstring) :
  casing_of (js "medium") level → toLowerCase level = js "medium".
Proof.
  intros (c1 & c2 & c3 & c4 & c5 & c6 & -> & H1 & H2 & H3 & H4 & H5 & H6)%casing_of_medium_inv.
  destruct H1 as [-> | ->], H2 as [-> | ->], H3 as [-> | ->],
    H4 as [-> | ->], H5 as [-> | ->], H6 as [-> | ->]; reflexivity.
Qed.

(** Every casing of [medium] is rendered as the same label. *)
Lemma formatComplexity_medium (level : jstring) :
  casing_of (js "medium") level → formatComplexity (Some level) = js "🟨 *Medium*".
Proof.
  intros H. unfold formatComplexity.
  pose proof (toLowerCase_medium level H) as Hl.
  destruct level as [|c level]; [discriminate|].
  cbn [truthy negb from_option id]. rewrite Hl. reflexivity.
Qed.

(** The author line of an announcement is found, whatever the complexity
    label, unless the link itself contains a match of the author pattern. *)
Lemma getAuthorIdFromText_announcement (prUrl complexity : jstring) :
  getAuthorIdFromText prUrl = None →
  getAuthorIdFromText (announcement prUrl (js "U123") complexity) = Some (js "U123").
Proof.
  intros Hurl. unfold getAuthorIdFromText, re_search, announcement in *.
  change (js "Link: <" ++ prUrl ++ ?rest) with
    (76 :: 105 :: 110 :: 107 :: 58 :: 32 :: 60 :: (prUrl ++ rest))%N.
  do 7 (cbn [re_search_nodes]; 
        match goal with |- context [match_here ?i ?re [] (?c :: ?s)] =>
          change (match_here i re [] (c :: s)) with (@None jstring) end).
  change (js "|Link to PR on GitHub>" ++ ?rest) with
    (124%N :: (tail (js "|Link to PR on GitHub>") ++ rest)).
  rewrite re_search_nodes_cut; [|reflexivity|done].
  reflexivity.
Qed.

Lemma match_here_capture (i : bool) (re : list Node) :
  ∀ (cap s x : jstring),
    match_here i re cap s = Some x →
    cap ≠ [] ∨ existsb is_group re = true →
    x ≠ [].
Proof.
  induction re as [|node re IH]; intros cap s x Hm Hc.
  - simpl in *. destruct Hc as [Hc|Hc]; [congruence|done].
  - destruct node as [a|a|a]; simpl in Hm, Hc.
    + destruct s as [|c s]; [done|]. destruct (atom_match i a c); [|done].
      by apply (IH cap s).
    + revert Hm. induction s as [|c s IHs]; intros Hm.
      * by apply (IH cap []).
      * destruct (atom_match i a c); [|by apply (IH cap (c :: s))].
        match type of Hm with
        | match ?t with _ => _ end = _ => destruct t eqn:Hstar
        end.
        -- apply IHs. congruence.
        -- by apply (IH cap (c :: s)).
    + destruct s as [|c s]; [done|]. destruct (atom_match i a c); [|done].
      assert (Hacc : [c] ≠ []) by done.
      revert Hm Hacc. generalize [c] as acc.
      induction s as [|d s IHs]; intros acc Hm Hacc.
      * apply (IH acc [] x Hm). by left.
      * destruct (atom_match i a d); [|apply (IH acc (d :: s) x Hm); by left].
        match type of Hm with
        | match ?t with _ => _ end = _ => destruct t eqn:Hplus
        end.
        -- apply (IHs (acc ++ [d])); [congruence|]. by destruct acc.
        -- apply (IH acc (d :: s) x Hm). by left.
Qed.

Lemma re_search_capture (re : RegExp) (s x : jstring) :
  existsb is_group (nodes re) = true → re_search re s = Some x → x ≠ [].
Proof.
  unfold re_search. intros Hg. induction s as [|c s IH]; simpl.
  - destruct (match_here _ _ _ _) eqn:Hm; [|done].
    intros [= ->]. eapply match_here_capture; eauto.
  - destruct (match_here _ _ _ _) eqn:Hm; [|done].
    intros [= ->]. eapply match_here_capture; eauto.
Qed.

Lemma getAuthorIdFromText_truthy (text author : jstring) :
  getAuthorIdFromText text = Some author → truthy (Some author) = true.
Proof.
  intros H. apply (re_search_capture author_regex) in H; [|reflexivity].
  by destruct author.
Qed.

Lemma starts_with_app (t r : jstring) : starts_with t (t ++ r) = true.
Proof. induction t as [|c t IH]; [done|]. simpl. by rewrite N.eqb_refl. Qed.

Lemma includes_here (t r : jstring) : includes (t ++ r) t = true.
Proof. destruct (t ++ r) eqn:E; simpl; rewrite <- E, starts_with_app; done. Qed.

Lemma includes_app_r (p s t : jstring) : includes s t = true → includes (p ++ s) t = true.
Proof.
  intros H. induction p as [|c p IH]; [done|]. simpl. rewrite IH. apply orb_true_r.
Qed.

Lemma includes_here3 (a b c r : jstring) :
  includes (a ++ b ++ c ++ r) (a ++ b ++ c) = true.
Proof.
  replace (a ++ b ++ c ++ r) with ((a ++ b ++ c) ++ r).
  - apply includes_here.
  - by rewrite <- !app_assoc.
Qed.

Lemma comment_own_mentions (author reviewer : jstring) :
  includes (MESSAGES_COMMENT_OWN author reviewer) (mention author) = true
  ∧ includes (MESSAGES_COMMENT_OWN author reviewer) (mention reviewer) = true.
Proof.
  unfold MESSAGES_COMMENT_OWN, mention.
  generalize (js "<@") (js ">") (js ", a comment or two was left on your PR by ")
    (eq_refl : js ">, a comment or two was left on your PR by <@"
               = js ">" ++ js ", a comment or two was left on your PR by " ++ js "<@")
    (eq_refl : js ">." = js ">" ++ [46]).
  intros open close middle -> ->. rewrite <- !app_assoc. split.
  - apply includes_here3.
  - do 4 apply includes_app_r. apply includes_here3.
Qed.

Lemma earlier_comment_own_mentions (author : jstring) :
  includes (Earlier.MESSAGES_COMMENT_OWN author) (mention author) = true.
Proof.
  unfold Earlier.MESSAGES_COMMENT_OWN, mention.
  assert (js ">, someone made a comment or two on your PR."
          = js ">" ++ js ", someone made a comment or two on your PR.") as ->
    by (vm_compute; reflexivity).
  generalize (js "<@") (js ">") (js ", someone made a comment or two on your PR.").
  intros open close rest. rewrite <- ?app_assoc. apply includes_here3.
Qed.

End TextFacts.

(* ================================================================== *)
(** ** Reasoning about asynchronous functions *)
(* ================================================================== *)

Module AsyncFacts.

Section WritesOnly.
Context (R : Store → Store → Prop).

Lemma writes_only_bind {A B : Type} (m : Async A) (f : A → Async B) (s : Store) :
  writes_only R m s → (∀ a s', writes_only R (f a) s') → writes_only R (m ≫= f) s.
Proof.
  intros Hm Hf. revert s Hm.
  induction m as [a|c|k IH|s0 k IH|c k IH]; intros s Hm.
  - apply Hf.
  - exact I.
  - apply (IH s s Hm).
  - destruct Hm as [Hw Hk]. split; [exact Hw|]. apply (IH _ Hk).
  - intros r s'. apply (IH r s' (Hm r s')).
Qed.

Lemma writes_only_when (b : bool) (p : Async unit) (s : Store) :
  writes_only R p s → writes_only R (when b p) s.
Proof. destruct b; simpl; auto. Qed.

End WritesOnly.

Lemma on_merged_quiet (channel ts key : jstring) (authorId : option jstring) (s : Store) :
  writes_only same_guard (on_merged channel ts key authorId) s.
Proof.
  unfold on_merged, get. simpl.
  destruct (processing_has key s); simpl; [|done].
  destruct (timers_has key s); simpl; [done|].
  intros [warnMsg|e] s'; simpl; [|done].
  repeat split.
Qed.

Lemma dispatch_quiet (event : ReactionEvent) (channel ts key : jstring)
    (history : option (list Message)) (s : Store) :
  writes_only same_guard (dispatch event channel ts key history) s.
Proof.
  unfold dispatch, get. cbn [writes_only mbind Async_bind bind].
  destruct (first_message history) as [message|]; [|done].
  apply writes_only_bind; [by apply writes_only_when | intros [] s1].
  apply writes_only_bind; [apply writes_only_when | intros [] s2].
  { unfold on_comment. simpl. by intros [v|e] s'. }
  apply writes_only_bind; [apply writes_only_when | intros [] s3].
  { unfold on_approved. simpl. by intros [v|e] s'. }
  apply writes_only_bind; [apply writes_only_when | intros [] s4].
  { unfold on_updated. simpl. intros [replies|e] s'; simpl; [|done].
    destruct (bool_decide _); simpl; by intros [v|e] s''. }
  apply writes_only_when, on_merged_quiet.
Qed.

Lemma releases_cons (key : jstring) (w : Store * Store) (ws : list (Store * Store)) :
  releases key (w :: ws) =
  (if decide (key ∈ processingReactions w.1 ∧ key ∉ processingReactions w.2)
   then 1 else 0) + releases key ws.
Proof. unfold releases. rewrite filter_cons. by destruct (decide _). Qed.

Lemma releases_same_guard (key : jstring) (b a : Store) (ws : list (Store * Store)) :
  same_guard b a → releases key ((b, a) :: ws) = releases key ws.
Proof.
  intros H. rewrite releases_cons. destruct (decide _) as [Hd|]; [|done].
  simpl in Hd. rewrite H in Hd. by destruct Hd.
Qed.

Lemma guarded_release (key : jstring) (env : nat → Env) (body : Async unit) :
  ∀ (n : nat) (s : Store),
    writes_only same_guard body s →
    let r := run (guarded key body) env n s in
    outcome r = Completed tt
    ∧ (key ∉ processingReactions (final r))
    ∧ releases key (writes r) ≤ 1
    ∧ (keeps key env → key ∈ processingReactions s → releases key (writes r) = 1)
    ∧ (never_adds key env → key ∈ processingReactions s →
       releases key (writes r) + releases key (intrusions r) = 1)
    ∧ (never_adds key env → key ∉ processingReactions s →
       releases key (writes r) + releases key (intrusions r) = 0).
Proof.
  unfold guarded.
  induction body as [[]|[e|]|k IH|s0 k IH|c k IH]; intros n s Hq; cbn -[releases].
  - (* normal completion *)
    rewrite releases_cons. change (releases key []) with 0. cbn.
    split_and!; [done|set_solver|destruct (decide _); lia|..].
    + intros _ Hin. rewrite decide_True; [done|]. set_solver.
    + intros _ Hin. rewrite decide_True; [done|]. set_solver.
    + intros _ Hout. rewrite decide_False; [done|]. set_solver.
  - (* throw: the finally block, then the catch block *)
    rewrite !releases_cons. change (releases key []) with 0. cbn.
    assert (Hno : ¬ (key ∈ processingReactions s ∖ {[key]}
                     ∧ (key ∉ processingReactions s ∖ {[key]} ∖ {[key]})))
      by set_solver.
    rewrite (decide_False (P := _ ∈ _ ∖ _ ∧ _) _ _ Hno).
    split_and!; [done|set_solver|destruct (decide _); lia|..].
    + intros _ Hin. rewrite decide_True; [done|]. set_solver.
    + intros _ Hin. rewrite decide_True; [done|]. set_solver.
    + intros _ Hout. rewrite decide_False; [done|]. set_solver.
  - (* return *)
    rewrite releases_cons. change (releases key []) with 0. cbn.
    split_and!; [done|set_solver|destruct (decide _); lia|..].
    + intros _ Hin. rewrite decide_True; [done|]. set_solver.
    + intros _ Hin. rewrite decide_True; [done|]. set_solver.
    + intros _ Hout. rewrite decide_False; [done|]. set_solver.
  - apply (IH s n s Hq).
  - destruct Hq as [Hw Hk]. rewrite releases_same_guard by done.
    destruct (IH n s0 Hk) as (Ho & Hf & Hle & Heq & Hsum1 & Hsum0).
    split_and!; [done..| | |].
    + intros Hkeep Hin. apply Heq; [done|]. by rewrite Hw.
    + intros Hnever Hin. apply Hsum1; [done|]. by rewrite Hw.
    + intros Hnever Hout. apply Hsum0; [done|]. by rewrite Hw.
  - destruct (IH (answer (env n) c) (S n) (interfere (env n) s) (Hq _ _))
      as (Ho & Hf & Hle & Heq & Hsum1 & Hsum0).
    split_and!; [done..| | |].
    + intros Hkeep Hin. apply Heq; [done|]. by apply Hkeep.
    + intros Hnever Hin. rewrite releases_cons. cbn [fst snd].
      destruct (decide (key ∈ processingReactions (interfere (env n) s))) as [Hi|Hi].
      * rewrite decide_False by (intros [_ ?]; done).
        specialize (Hsum1 Hnever Hi). lia.
      * rewrite decide_True by done.
        specialize (Hsum0 Hnever Hi). lia.
    + intros Hnever Hout. rewrite releases_cons. cbn [fst snd].
      rewrite decide_False by (intros [? _]; done).
      specialize (Hsum0 Hnever (Hnever n s Hout)). lia.
Qed.

(** The shape of [delayed_deletion]: a body whose errors are swallowed,
    inside [try]/[finally]. *)
Lemma finally_timers_delete (key : jstring) (env : nat → Env) (body : Async unit) :
  ∀ (n : nat) (s : Store),
    let r := run (function_body
                    (try_finally (try_catch body (λ _, skip)) (timers_delete key)))
               env n s in
    outcome r = Completed tt ∧ deletionTimers (final r) !! key = None.
Proof.
  induction body as [[]|[e|]|k IH|s0 k IH|c k IH]; intros n s; cbn.
  - split; [done|]. apply lookup_delete_eq.
  - split; [done|]. apply lookup_delete_eq.
  - split; [done|]. apply lookup_delete_eq.
  - apply IH.
  - apply IH.
  - apply IH.
Qed.

End AsyncFacts.

(* ================================================================== *)
(** ** Handlers in the event loop *)
(* ================================================================== *)

Module LoopFacts.
Import AsyncFacts.

Lemma str_eqb_refl (x : jstring) : str_eqb x x = true.
Proof. by apply bool_decide_eq_true_2. Qed.
Lemma merged_not_comment : str_eqb REACTIONS_MERGED REACTIONS_COMMENT = false.
Proof. reflexivity. Qed.
Lemma merged_not_approved : str_eqb REACTIONS_MERGED REACTIONS_APPROVED = false.
Proof. reflexivity. Qed.
Lemma merged_not_updated : str_eqb REACTIONS_MERGED REACTIONS_UPDATED = false.
Proof. reflexivity. Qed.

Lemma spawn_eq (p : Async unit) (w : World) (s' : Store) (st : Status) :
  advance p (store w) = (s', st) →
  spawn p w = {| store := s'; tasks := tasks w ++ [st];
                 wire := wire w ++ pending_call st |}.
Proof. unfold spawn. by intros ->. Qed.

Lemma settle_eq (i : nat) (a : Answer) (w : World) (c : ApiCall)
    (k : Settled (resp c) → Async unit) (s' : Store) (st : Status) :
  tasks w !! i = Some (Pending c k) →
  advance (k (a c)) (store w) = (s', st) →
  settle i a w = {| store := s'; tasks := <[i := st]> (tasks w);
                    wire := wire w ++ pending_call st |}.
Proof. unfold settle. by intros -> ->. Qed.

Lemma advance_reaction_added (s : Store) (channel ts reaction user : jstring) :
  advance (reaction_added (reaction_on channel ts reaction user)) s
  = (with_processingReactions (λ g : gset jstring, {[key_of channel ts]} ∪ g) s,
     Pending (fetch channel ts)
       (in_flight (reaction_on channel ts reaction user) channel ts)).
Proof. reflexivity. Qed.

Lemma spawn_reaction_added (w : World) (channel ts reaction user : jstring) :
  spawn (reaction_added (reaction_on channel ts reaction user)) w
  = {| store := with_processingReactions
                  (λ g : gset jstring, {[key_of channel ts]} ∪ g) (store w);
       tasks := tasks w ++ [Pending (fetch channel ts)
                  (in_flight (reaction_on channel ts reaction user) channel ts)];
       wire := wire w ++ [fetch channel ts] |}.
Proof. by apply spawn_eq. Qed.

(** The removal finds the key in the guard. *)
Lemma advance_removed_in_flight (s : Store) (channel ts user : jstring) :
  key_of channel ts ∈ processingReactions s →
  advance (reaction_removed (reaction_on channel ts REACTIONS_MERGED user)) s
  = (with_processingReactions (λ g : gset jstring, g ∖ {[key_of channel ts]}) s,
     Done (Completed tt)).
Proof.
  intros Hin. unfold reaction_removed. cbn. rewrite str_eqb_refl. cbn.
  unfold processing_has. by rewrite bool_decide_eq_true_2.
Qed.

(** The merge handler resumes and finds the key gone from the guard. *)
Lemma advance_in_flight_cancelled (s : Store) (channel ts user : jstring)
    (r : Settled (option (list Message))) :
  key_of channel ts ∉ processingReactions s →
  ∃ s', advance (in_flight (reaction_on channel ts REACTIONS_MERGED user) channel ts r) s
        = (s', Done (Completed tt))
        ∧ settled_quietly s s'.
Proof.
  intros Hout. unfold in_flight, guarded.
  destruct r as [history|e]; cbn; [|by eexists].
  unfold dispatch. destruct (first_message history) as [m|]; cbn; [|by eexists].
  destruct (opt_eqb (msg_bot_id m) (myBotId s)); cbn; [|by eexists].
  rewrite merged_not_comment, merged_not_approved, merged_not_updated, str_eqb_refl.
  cbn. unfold processing_has. rewrite bool_decide_eq_false_2 by done. cbn.
  by eexists.
Qed.

(** The merge handler resumes and finds a timer already recorded. *)
Lemma advance_in_flight_scheduled (s : Store) (channel ts user : jstring)
    (r : Settled (option (list Message))) :
  is_Some (deletionTimers s !! key_of channel ts) →
  ∃ s', advance (in_flight (reaction_on channel ts REACTIONS_MERGED user) channel ts r) s
        = (s', Done (Completed tt))
        ∧ settled_quietly s s'.
Proof.
  intros Htimer. unfold in_flight, guarded.
  destruct r as [history|e]; cbn; [|by eexists].
  unfold dispatch. destruct (first_message history) as [m|]; cbn; [|by eexists].
  destruct (opt_eqb (msg_bot_id m) (myBotId s)); cbn; [|by eexists].
  rewrite merged_not_comment, merged_not_approved, merged_not_updated, str_eqb_refl.
  cbn. destruct (processing_has (key_of channel ts) s); cbn; [|by eexists].
  unfold timers_has. rewrite bool_decide_eq_true_2 by done. cbn.
  by eexists.
Qed.

(** A map has at most one entry under a key. *)
Lemma entries_at_most_one `{Countable K} {V : Type} (key : K) (m : gmap K V) :
  length (filter (λ e, e.1 = key) (map_to_list m)) ≤ 1.
Proof.
  pose proof (NoDup_fst_map_to_list m) as Hnd.
  induction (map_to_list m) as [|[k v] l IH]; [simpl; lia|].
  rewrite fmap_cons in Hnd. apply NoDup_cons in Hnd as [Hk Hnd].
  rewrite filter_cons. destruct (decide _) as [Heq|]; [|by apply IH].
  simpl in Heq. subst k. simpl.
  assert (filter (λ e : K * V, e.1 = key) l = []) as ->; [|simpl; lia].
  destruct (filter (λ e : K * V, e.1 = key) l) as [|[k' v'] l'] eqn:Hf; [done|].
  assert (Hin : (k', v') ∈ filter (λ e : K * V, e.1 = key) l) by (rewrite Hf; left).
  apply list_elem_of_filter in Hin as [Hk' Hin]. simpl in Hk'. subst k'.
  exfalso. apply Hk. by apply (list_elem_of_fmap_2 fst l (key, v')).
Qed.

End LoopFacts.

(* ================================================================== *)
(** ** The announcement text and the author parse *)
(* ================================================================== *)

Module TextTheorems.
Import TextFacts LoopFacts.

(** What [/pr] posts: the announcement built from the first two words of
    the command text. *)
Lemma pr_command_posts_announcement
    (w : World) (command : SlashCommand) (prUrl : jstring) (rest : list jstring)
    (a : Answer) :
  split_ws (cmd_text command) = prUrl :: rest →
  truthy (Some prUrl) = true →
  a Ack = Fulfilled tt →
  wire (play [SlashPr command; Settle (length (tasks w)) a] w)
  = wire w ++ [Ack;
               ChatPostMessage (cmd_channel_id command) None
                 (announcement prUrl (cmd_user_id command)
                    (formatComplexity (rest !! 0)))].
Proof.
  intros Hsplit Hurl Hack. cbn [play foldl tick]. unfold spawn, pr_command. cbn.
  unfold settle. cbn. rewrite list_lookup_middle by done. rewrite Hack, Hsplit. cbn.
  destruct prUrl as [|c prUrl]; [done|]. cbn. by rewrite <- app_assoc.
Qed.

(** C7, as stated, fails: the command text [Author:<@EVIL> Medium] sent by
    [U123] posts an announcement whose link precedes the author line, and
    the parse of that announcement returns [EVIL]. *)
Lemma announcement_author_can_be_shadowed :
  let command := {| cmd_text := js "Author:<@EVIL> Medium"; cmd_user_id := js "U123";
                    cmd_channel_id := C0 |} in
  let text := announcement (js "Author:<@EVIL>") (js "U123")
                (formatComplexity (Some (js "Medium"))) in
  wire (play [SlashPr command; Settle 0 (slack None None None None)] (boot bot_store))
  = [Ack; ChatPostMessage C0 None text]
  ∧ getAuthorIdFromText text = Some (js "EVIL")
  ∧ getAuthorIdFromText text ≠ Some (js "U123").
Proof. vm_compute. done. Qed.

(** C7 (amended). For author [U123], every casing of the label [medium] and
    every link in which the author pattern does not itself match, the parse
    of the announcement text returns [U123]; and every casing of [medium]
    is rendered as the same complexity string. *)
Theorem announcement_author_roundtrip (prUrl level : jstring) :
  casing_of (js "medium") level →
  getAuthorIdFromText prUrl = None →
  getAuthorIdFromText
    (announcement prUrl (js "U123") (formatComplexity (Some level)))
  = Some (js "U123")
  ∧ formatComplexity (Some level) = js "🟨 *Medium*".
Proof.
  intros Hcasing Hurl. split.
  - by apply getAuthorIdFromText_announcement.
  - by apply formatComplexity_medium.
Qed.

Lemma announcement_author_roundtrip_witness :
  casing_of (js "medium") (js "MeDIum")
  ∧ getAuthorIdFromText (js "https://github.com/x/y/pull/1") = None
  ∧ getAuthorIdFromText
      (announcement (js "https://github.com/x/y/pull/1") (js "U123")
         (formatComplexity (Some (js "MeDIum"))))
    = Some (js "U123").
Proof.
  assert (Hc : casing_of (js "medium") (js "MeDIum")).
  { vm_compute. repeat constructor; (left; reflexivity) || (right; reflexivity). }
  assert (Hu : getAuthorIdFromText (js "https://github.com/x/y/pull/1") = None).
  { vm_compute. reflexivity. }
  split; [exact Hc|]. split; [exact Hu|].
  exact (proj1 (announcement_author_roundtrip _ _ Hc Hu)).
Defined.

(** Remark: in the earlier variant the author line comes first, and the
    parse returns the author for every link. *)
Lemma earlier_announcement_author_roundtrip (prUrl complexity : jstring) :
  getAuthorIdFromText (Earlier.announcement prUrl (js "U123") complexity)
  = Some (js "U123").
Proof. reflexivity. Qed.

End TextTheorems.

(* ================================================================== *)
(** ** The in-flight guard and the deferred cleanup *)
(* ================================================================== *)

Module GuardTheorems.
Import AsyncFacts.

(** C4. For every [reaction_added] event on a message item, whatever the
    Slack API answers (rejected promises included) and whatever other
    handlers do while this one is suspended, the handling pass completes and
    the key it put in the in-flight guard at its start is not in the guard
    when it completes.  The pass itself takes the key out at most once, and
    exactly once when no other handler takes it out in between; counting
    also what happens during its awaits, the key is taken out exactly once
    between start and completion, provided no other handler puts it back. *)
Theorem reaction_added_releases_guard
    (event : ReactionEvent) (channel ts : jstring) (env : nat → Env) (s : Store) :
  ev_item event = ItemMessage channel ts →
  let key := key_of channel ts in
  let r := run (reaction_added event) env 0 s in
  outcome r = Completed tt
  ∧ head (writes r)
    = Some (s, with_processingReactions (λ g : gset jstring, {[key]} ∪ g) s)
  ∧ (key ∉ processingReactions (final r))
  ∧ releases key (writes r) ≤ 1
  ∧ (keeps key env → releases key (writes r) = 1)
  ∧ (never_adds key env →
     releases key (writes r) + releases key (intrusions r) = 1).
Proof.
  intros Hitem key r.
  destruct event as [item reaction user]. simpl in Hitem. subst item.
  set (ev := {| ev_item := ItemMessage channel ts; ev_reaction := reaction;
                ev_user := user |}).
  set (s1 := with_processingReactions (λ g : gset jstring, {[key]} ∪ g) s).
  set (body := await (ConversationsHistory channel (Some ts) true 1)
                 ≫= dispatch ev channel ts key).
  assert (Hr : r = written (s, s1) (run (guarded key body) env 0 s1)) by reflexivity.
  assert (Hq : writes_only same_guard body s1).
  { unfold body. apply writes_only_bind; [by intros [v|e] s'|].
    intros history s'. apply dispatch_quiet. }
  assert (Hin : key ∈ processingReactions s1) by (subst s1; simpl; set_solver).
  destruct (guarded_release key env body 0 s1 Hq)
    as (Ho & Hf & Hle & Heq & Hsum & _).
  rewrite Hr. cbn [written outcome final writes intrusions head].
  assert (Hfirst : releases key ((s, s1) :: writes (run (guarded key body) env 0 s1))
                   = releases key (writes (run (guarded key body) env 0 s1))).
  { rewrite releases_cons. destruct (decide _) as [[_ Hd]|]; [|done]. by destruct Hd. }
  rewrite Hfirst. split_and!; [done..| |].
  - intros Hkeep. by apply Heq.
  - intros Hnever. by apply Hsum.
Qed.

Lemma reaction_added_releases_guard_witness :
  let event := reaction_on C0 T0 REACTIONS_MERGED U2 in
  let env := alone (λ _, slack (Some [announced "https://x/1" "U1" "ez"])
                           (Some W0) None None) in
  ev_item event = ItemMessage C0 T0
  ∧ releases (key_of C0 T0) (writes (run (reaction_added event) env 0 bot_store)) = 1.
Proof.
  split; [reflexivity|].
  apply (reaction_added_releases_guard
           (reaction_on C0 T0 REACTIONS_MERGED U2) C0 T0 _ bot_store eq_refl).
  intros n s Hin. exact Hin.
Defined.

(** C5. Every run of the deferred cleanup task completes, and when it
    completes the deletion-timer map has no entry for its key: whatever the
    Slack API answers to the reactions query, the reply fetch and each
    delete, and whatever other handlers do in between. *)
Theorem delayed_deletion_removes_entry (cl : Closure) (env : nat → Env) (s : Store) :
  let r := run (delayed_deletion cl) env 0 s in
  outcome r = Completed tt ∧ deletionTimers (final r) !! cl_key cl = None.
Proof. apply finally_timers_delete. Qed.

(** C6. When the task fires and the reactions now on the anchor message do
    not include [merged], the task issues the reactions query, then at most
    one delete, of the warning message, and completes: no reply list is
    fetched and nothing else is deleted. *)
Theorem delayed_deletion_cancelled
    (cl : Closure) (env : nat → Env) (s : Store)
    (info : option (option (list Reaction))) :
  answer (env 0) (ReactionsGet (cl_channel cl) (cl_ts cl)) = Fulfilled info →
  still_has_merged info = false →
  let r := run (delayed_deletion cl) env 0 s in
  calls r
  = ReactionsGet (cl_channel cl) (cl_ts cl)
      :: (if truthy (cl_warn_ts cl)
          then [ChatDelete (cl_channel cl) (cl_warn_ts cl)] else [])
  ∧ outcome r = Completed tt
  ∧ deletionTimers (final r) !! cl_key cl = None.
Proof.
  intros Hans Hgone r.
  assert (Hend : outcome r = Completed tt
                 ∧ deletionTimers (final r) !! cl_key cl = None)
    by apply finally_timers_delete.
  split; [|exact Hend]. clear Hend.
  subst r. unfold delayed_deletion. cbn. rewrite Hans. cbn. rewrite Hgone. cbn.
  destruct (truthy (cl_warn_ts cl)); cbn; [|done].
  by destruct (answer (env 1) (ChatDelete (cl_channel cl) (cl_warn_ts cl))).
Qed.

Lemma delayed_deletion_cancelled_witness :
  let cl := {| cl_channel := C0; cl_ts := T0; cl_key := key_of C0 T0;
               cl_warn_ts := Some W0 |} in
  let env := alone (λ _, slack None None (Some (Some [])) None) in
  answer (env 0) (ReactionsGet C0 T0) = Fulfilled (Some (Some []))
  ∧ still_has_merged (Some (Some [])) = false
  ∧ calls (run (delayed_deletion cl) env 0 pending_store)
    = [ReactionsGet C0 T0; ChatDelete C0 (Some W0)].
Proof.
  split; [reflexivity|]. split; [reflexivity|].
  exact (proj1 (delayed_deletion_cancelled
                  {| cl_channel := C0; cl_ts := T0; cl_key := key_of C0 T0;
                     cl_warn_ts := Some W0 |}
                  (alone (λ _, slack None None (Some (Some [])) None))
                  pending_store (Some (Some [])) eq_refl eq_refl)).
Defined.

End GuardTheorems.

(* ================================================================== *)
(** ** The deletion workflow *)
(* ================================================================== *)

Module WorkflowTheorems.
Import AsyncFacts LoopFacts.

(** The race of the two handlers alone, nothing else running in between.
    A [merged] reaction is added and the handler is suspended on the
    history fetch with the key in the in-flight guard; the matching
    [reaction_removed] is handled then.  The removal takes the key out of
    the guard and does nothing else; when the added-handler resumes,
    whatever the fetch returned, it ends without posting a warning, without
    recording a PendingDeletion and without arming a timer. *)
Theorem removal_before_registration_wins
    (w : World) (channel ts user remover : jstring) (a : Answer) :
  let key := key_of channel ts in
  let added := ReactionAdded (reaction_on channel ts REACTIONS_MERGED user) in
  let removed := ReactionRemoved (reaction_on channel ts REACTIONS_MERGED remover) in
  let i := length (tasks w) in
  let w1 := play [added] w in
  let w2 := play [added; removed] w in
  let w3 := play [added; removed; Settle i a] w in
  (* the added-handler holds the key and awaits the history *)
  key ∈ processingReactions (store w1)
  ∧ (∃ k, tasks w1 !! i = Some (Pending (fetch channel ts) k))
  (* the removal takes the key out of the guard, and that is all *)
  ∧ (key ∉ processingReactions (store w2))
  ∧ tasks w2 !! S i = Some (Done (Completed tt))
  ∧ wire w2 = wire w1
  ∧ settled_quietly (store w1) (store w2)
  (* the added-handler aborts *)
  ∧ tasks w3 !! i = Some (Done (Completed tt))
  ∧ wire w3 = wire w ++ [fetch channel ts]
  ∧ settled_quietly (store w) (store w3).
Proof.
  intros key added removed i w1 w2 w3.
  assert (Hw1 : w1 = {| store := with_processingReactions
                                   (λ g : gset jstring, {[key]} ∪ g) (store w);
                        tasks := tasks w ++ [Pending (fetch channel ts)
                          (in_flight (reaction_on channel ts REACTIONS_MERGED user)
                             channel ts)];
                        wire := wire w ++ [fetch channel ts] |})
    by apply spawn_reaction_added.
  assert (Hin : key ∈ processingReactions (store w1)).
  { rewrite Hw1. simpl. set_solver. }
  assert (Hw2 : w2 = {| store := with_processingReactions
                                   (λ g : gset jstring, g ∖ {[key]}) (store w1);
                        tasks := tasks w1 ++ [Done (Completed tt)];
                        wire := wire w1 ++ [] |}).
  { apply (spawn_eq _ w1), advance_removed_in_flight, Hin. }
  assert (Hout : key ∉ processingReactions (store w2)).
  { rewrite Hw2. simpl. set_solver. }
  assert (Hi : tasks w2 !! i = Some (Pending (fetch channel ts)
                 (in_flight (reaction_on channel ts REACTIONS_MERGED user) channel ts))).
  { rewrite Hw2, Hw1. simpl. rewrite lookup_app_l.
    - apply list_lookup_middle. done.
    - rewrite length_app. simpl. lia. }
  destruct (advance_in_flight_cancelled (store w2) channel ts user
              (a (fetch channel ts)) Hout) as (s3 & Hadv & Hquiet).
  assert (Hw3 : w3 = {| store := s3;
                        tasks := <[i := Done (Completed tt)]> (tasks w2);
                        wire := wire w2 ++ [] |}).
  { apply (settle_eq i a w2 _ _ s3 _ Hi Hadv). }
  split_and!.
  - done.
  - rewrite Hw1. simpl. eexists. by apply list_lookup_middle.
  - done.
  - rewrite Hw2, Hw1. simpl. apply list_lookup_middle.
    rewrite length_app. simpl. lia.
  - rewrite Hw2. simpl. by rewrite app_nil_r.
  - rewrite Hw2. by simpl.
  - rewrite Hw3. simpl. apply list_lookup_insert_eq.
    by apply lookup_lt_Some in Hi.
  - rewrite Hw3, Hw2, Hw1. simpl. by rewrite !app_nil_r.
  - rewrite Hw3. unfold settled_quietly in *. simpl.
    destruct Hquiet as (-> & -> & -> & ->). rewrite Hw2, Hw1. by simpl.
Qed.

(** C1. The code at the failing input.  A [merged] reaction is added to an
    announcement of the bot and removed while the handler awaits the
    history; before the handler resumes, another user adds a
    [speech_balloon] reaction to the same message.  The removal takes the
    key out of the guard and ends; the handler of the second reaction puts
    the key back; the first handler, resumed, finds the key in the guard and
    registers the deletion: it posts the warning, arms the timer and
    records the entry, although the removal came before the registration. *)
Theorem readded_key_defeats_removal :
  let merged := reaction_on C0 T0 REACTIONS_MERGED U1 in
  let comment := reaction_on C0 T0 REACTIONS_COMMENT U2 in
  let removed := play [ReactionAdded merged; ReactionRemoved merged] (boot bot_store) in
  let readded := play [ReactionAdded merged; ReactionRemoved merged;
                       ReactionAdded comment] (boot bot_store) in
  let resumed := play [ReactionAdded merged; ReactionRemoved merged;
                       ReactionAdded comment;
                       Settle 0 found_anchor; Settle 0 found_anchor] (boot bot_store) in
  processing_has (key_of C0 T0) (store removed) = false
  ∧ tasks removed !! 1 = Some (Done (Completed tt))
  ∧ processing_has (key_of C0 T0) (store readded) = true
  ∧ wire resumed = [fetch C0 T0; fetch C0 T0;
                    ChatPostMessage C0 (Some T0) (MESSAGES_MERGED_WARNING_OWN U1)]
  ∧ tasks resumed !! 0 = Some (Done (Completed tt))
  ∧ deletionTimers (store resumed) !! key_of C0 T0
    = Some {| timeoutId := 0; warnTs := Some W0 |}
  ∧ timeouts (store resumed) !! 0
    = Some {| callback := armed; delay_ms := 30000 |}.
Proof. vm_compute. done. Qed.

(** A merge signal on a key that already has an entry, nothing else running
    in between: the handler fetches the message and ends; it posts no
    warning, arms no timer and leaves the entry as it is.  The map itself
    holds at most one entry under a key. *)
Theorem second_merge_signal_is_noop
    (w : World) (channel ts user : jstring) (a : Answer) (t : DeletionTimer) :
  let key := key_of channel ts in
  let i := length (tasks w) in
  deletionTimers (store w) !! key = Some t →
  let w2 := play [ReactionAdded (reaction_on channel ts REACTIONS_MERGED user);
                  Settle i a] w in
  (∀ m : gmap jstring DeletionTimer,
     length (filter (λ e, e.1 = key) (map_to_list m)) ≤ 1)
  ∧ tasks w2 !! i = Some (Done (Completed tt))
  ∧ wire w2 = wire w ++ [fetch channel ts]
  ∧ deletionTimers (store w2) !! key = Some t
  ∧ settled_quietly (store w) (store w2).
Proof.
  intros key i Ht w2.
  split; [intros m; apply entries_at_most_one|].
  subst w2. cbn [play foldl tick]. rewrite spawn_reaction_added.
  set (w1 := {| store := _; tasks := _; wire := _ |}).
  assert (Hi : tasks w1 !! i = Some (Pending (fetch channel ts)
                 (in_flight (reaction_on channel ts REACTIONS_MERGED user) channel ts)))
    by by apply list_lookup_middle.
  destruct (advance_in_flight_scheduled (store w1) channel ts user
              (a (fetch channel ts))) as (s2 & Hadv & Hquiet).
  { unfold w1, key in *. simpl. by rewrite Ht. }
  rewrite (settle_eq i a w1 _ _ s2 _ Hi Hadv). simpl.
  destruct Hquiet as (Hd & Hq).
  split_and!.
  - apply list_lookup_insert_eq. rewrite length_app. simpl. lia.
  - by rewrite app_nil_r.
  - by rewrite Hd.
  - by split.
Qed.

Lemma second_merge_signal_is_noop_witness :
  let w := boot pending_store in
  let a := slack (Some [announced "https://x/1" "U1" "ez"]) (Some W0) None None in
  deletionTimers (store w) !! key_of C0 T0 = Some {| timeoutId := 0; warnTs := Some W0 |}
  ∧ wire (play [ReactionAdded (reaction_on C0 T0 REACTIONS_MERGED U2); Settle 0 a] w)
    = [fetch C0 T0].
Proof.
  assert (H : deletionTimers (store (boot pending_store)) !! key_of C0 T0
              = Some {| timeoutId := 0; warnTs := Some W0 |}).
  { vm_compute. reflexivity. }
  split; [exact H|].
  exact (proj1 (proj2 (proj2
    (second_merge_signal_is_noop (boot pending_store) C0 T0 U2
       (slack (Some [announced "https://x/1" "U1" "ez"]) (Some W0) None None)
       _ H)))).
Defined.

(** The check of the map and the write to it are separated by the post of
    the warning.  Two [merged] events in flight for one message both pass
    the check; two warnings are posted and two timers armed, the map
    keeping the entry of the later one. *)
Example concurrent_merge_signals_arm_two_timers :
  let a := slack (Some [announced "https://x/1" "U1" "ez"]) (Some W0) None None in
  let w := play [ReactionAdded (reaction_on C0 T0 REACTIONS_MERGED U1);
                 ReactionAdded (reaction_on C0 T0 REACTIONS_MERGED U2);
                 Settle 0 a; Settle 1 a; Settle 0 a; Settle 1 a] (boot bot_store) in
  length (filter (λ c, is_post c = true) (wire w)) = 2
  ∧ size (timeouts (store w)) = 2
  ∧ size (deletionTimers (store w)) = 1.
Proof. vm_compute. done. Qed.

(** C2. The code at the failing input.  Two users add the [merged] reaction
    to an announcement of the bot, and both fetches settle before either
    warning is posted.  Both handlers pass the check of the map: two
    warnings are posted and two timers armed for the one key.  The map
    records the later timer only, so the earlier one is pending with no
    entry: when the reaction is removed, the recorded timer is cancelled and
    the entry dropped, and the other timer is still armed; it fires and the
    deferred deletion starts. *)
Theorem concurrent_merge_signals_orphan_timer :
  let first := ReactionAdded (reaction_on C0 T0 REACTIONS_MERGED U1) in
  let second := ReactionAdded (reaction_on C0 T0 REACTIONS_MERGED U2) in
  let removed := ReactionRemoved (reaction_on C0 T0 REACTIONS_MERGED U1) in
  let warning := ChatPostMessage C0 (Some T0) (MESSAGES_MERGED_WARNING_OWN U1) in
  let both := [first; second; Settle 0 found_anchor; Settle 1 found_anchor;
               Settle 0 found_anchor; Settle 1 found_anchor_again] in
  let scheduled := play both (boot bot_store) in
  let cancelled := play (both ++ [removed; Settle 2 found_anchor]) (boot bot_store) in
  let fired := play (both ++ [removed; Settle 2 found_anchor; Fire 0]) (boot bot_store) in
  (* two warnings, two timers, one entry *)
  wire scheduled = [fetch C0 T0; fetch C0 T0; warning; warning]
  ∧ timeouts (store scheduled) !! 0 = Some {| callback := armed; delay_ms := 30000 |}
  ∧ timeouts (store scheduled) !! 1
    = Some {| callback := {| cl_channel := C0; cl_ts := T0; cl_key := key_of C0 T0;
                             cl_warn_ts := Some W1 |};
              delay_ms := 30000 |}
  ∧ deletionTimers (store scheduled) !! key_of C0 T0
    = Some {| timeoutId := 1; warnTs := Some W1 |}
  (* the removal cancels the recorded timer; the other one stays armed *)
  ∧ wire cancelled = wire scheduled ++ [ChatDelete C0 (Some W1)]
  ∧ deletionTimers (store cancelled) !! key_of C0 T0 = None
  ∧ timeouts (store cancelled) !! 1 = None
  ∧ timeouts (store cancelled) !! 0 = Some {| callback := armed; delay_ms := 30000 |}
  (* and fires *)
  ∧ wire fired = wire cancelled ++ [ReactionsGet C0 T0].
Proof. vm_compute. done. Qed.

(** C3. A [merged] reaction is removed from a message whose deletion timer
    is armed (an entry in the map, the key not in the in-flight guard).  The
    handler cancels the timer and removes the entry; the only call it issues
    is the delete of the warning message recorded in the entry (none when
    the entry records no warning timestamp), and it ends when that call
    settles, with success or failure.  No other message is deleted. *)
Theorem removal_cancels_armed_timer
    (w : World) (channel ts remover : jstring) (a : Answer) (t : DeletionTimer) :
  let key := key_of channel ts in
  let i := length (tasks w) in
  let removed := ReactionRemoved (reaction_on channel ts REACTIONS_MERGED remover) in
  deletionTimers (store w) !! key = Some t →
  key ∉ processingReactions (store w) →
  let w1 := play [removed] w in
  let w2 := play [removed; Settle i a] w in
  store w1 = with_deletionTimers (λ m, delete key m) (disarm (timeoutId t) (store w))
  ∧ timeouts (store w1) !! timeoutId t = None
  ∧ deletionTimers (store w1) !! key = None
  ∧ wire w1 = wire w ++ (if truthy (warnTs t)
                         then [ChatDelete channel (warnTs t)] else [])
  ∧ tasks w2 !! i = Some (Done (Completed tt))
  ∧ wire w2 = wire w1
  ∧ store w2 = store w1.
Proof.
  intros key i removed Ht Hout w1 w2.
  subst w1 w2 removed. cbn [play foldl tick]. unfold spawn, reaction_removed.
  cbn. rewrite str_eqb_refl. cbn.
  unfold processing_has. rewrite bool_decide_eq_false_2 by done. cbn.
  fold key. rewrite Ht. cbn.
  destruct (truthy (warnTs t)) eqn:Hwarn; cbn.
  - unfold settle. cbn. rewrite list_lookup_middle by done. cbn.
    destruct (a (ChatDelete channel (warnTs t))) as [[]|e]; cbn;
      (split_and!;
       [done | apply lookup_delete_eq | apply lookup_delete_eq | done
       | apply list_lookup_insert_eq; rewrite length_app; simpl; lia
       | by rewrite app_nil_r | done]).
  - unfold settle. cbn. rewrite list_lookup_middle by done. cbn.
    split_and!;
      [done | apply lookup_delete_eq | apply lookup_delete_eq | done
      | by apply list_lookup_middle | done | done].
Qed.

Lemma removal_cancels_armed_timer_witness :
  let w := boot pending_store in
  let removed := ReactionRemoved (reaction_on C0 T0 REACTIONS_MERGED U2) in
  deletionTimers (store w) !! key_of C0 T0 = Some {| timeoutId := 0; warnTs := Some W0 |}
  ∧ (key_of C0 T0 ∉ processingReactions (store w))
  ∧ wire (play [removed] w) = [ChatDelete C0 (Some W0)]
  ∧ timeouts (store (play [removed] w)) !! 0 = None.
Proof.
  assert (H : deletionTimers (store (boot pending_store)) !! key_of C0 T0
              = Some {| timeoutId := 0; warnTs := Some W0 |}).
  { vm_compute. reflexivity. }
  assert (G : key_of C0 T0 ∉ processingReactions (store (boot pending_store))).
  { apply not_elem_of_empty. }
  pose proof (removal_cancels_armed_timer (boot pending_store) C0 T0 U2
                (slack None None None None) _ H G) as (_ & Htimer & _ & Hwire & _).
  split; [exact H|]. split; [exact G|]. split; [exact Hwire | exact Htimer].
Defined.

End WorkflowTheorems.

(* ================================================================== *)
(** ** Notifications and the identity check *)
(* ================================================================== *)

Module NotificationTheorems.
Import TextFacts AsyncFacts LoopFacts.

(** C8, as stated, fails, in two ways.  In the later variant the
    announcement of [/pr Author:<@U9> medium] by [U1] is written by the bot
    and contains [Author: <@U1>], yet the reply to a [speech_balloon]
    reaction by [U2] mentions [U9] and [U2], not [U1].  In the earlier
    variant the reply to a [speech_balloon] reaction by [U2] on the
    announcement of a PR of [U1] mentions [U1] and not [U2]: its comment
    notification has the author as its only argument. *)
Lemma comment_reply_can_miss_author :
  let anchor := announced "Author:<@U9>" "U1" "medium" in
  let w := play [ReactionAdded (reaction_on C0 T0 REACTIONS_COMMENT U2);
                 Settle 0 (slack (Some [anchor]) None None None);
                 Settle 0 (slack None (Some W0) None None)] (boot bot_store) in
  let e := settle 0 (slack None (Some W0) None None)
             (settle 0 (slack (Some [earlier_anchor]) None None None)
                (spawn (EarlierBot.reaction_added
                          (reaction_on C0 T0 REACTIONS_COMMENT U2))
                   (boot bot_store))) in
  (includes (default [] (msg_text anchor)) (js "Author: <@U1>") = true
   ∧ msg_bot_id anchor = myBotId bot_store
   ∧ wire w = [fetch C0 T0;
               ChatPostMessage C0 (Some T0)
                 (js "<@U9>, a comment or two was left on your PR by <@U2>.")]
   ∧ includes (js "<@U9>, a comment or two was left on your PR by <@U2>.")
       (js "U1") = false)
  ∧ (includes (default [] (msg_text earlier_anchor)) (js "Author: <@U1>") = true
     ∧ msg_bot_id earlier_anchor = myBotId bot_store
     ∧ wire e = [fetch C0 T0;
                 ChatPostMessage C0 (Some T0)
                   (js "<@U1>, someone made a comment or two on your PR.")]
     ∧ includes (js "<@U1>, someone made a comment or two on your PR.")
         (js "U2") = false).
Proof. vm_compute. done. Qed.

(** Remark: the comment notification of the earlier variant names the
    author only. *)
Lemma earlier_comment_reply_names_author_only :
  includes (Earlier.MESSAGES_COMMENT_OWN U1) (mention U1) = true
  ∧ includes (Earlier.MESSAGES_COMMENT_OWN U1) U2 = false.
Proof. vm_compute. done. Qed.

(** C8 (amended). A [speech_balloon] reaction is added by [reviewer] to a
    message written by the bot in whose text the first match of the author
    pattern names [author]: in either variant the handler posts exactly one
    message, a reply in the thread of the message.  In the later variant
    its text mentions [author] and [reviewer]; in the earlier variant its
    text mentions [author] and is the same whoever [reviewer] is. *)
Theorem comment_reply_mentions_author_and_reviewer
    (w : World) (channel ts reviewer author : jstring) (a a' : Answer)
    (m : Message) (rest : list Message) :
  let i := length (tasks w) in
  let event := reaction_on channel ts REACTIONS_COMMENT reviewer in
  let reply := MESSAGES_COMMENT_OWN author reviewer in
  let earlier_reply := Earlier.MESSAGES_COMMENT_OWN author in
  a (fetch channel ts) = Fulfilled (Some (m :: rest)) →
  msg_bot_id m = myBotId (store w) →
  getAuthorIdFromText (or_else (msg_text m) []) = Some author →
  let w3 := play [ReactionAdded event; Settle i a; Settle i a'] w in
  let e3 := settle i a' (settle i a (spawn (EarlierBot.reaction_added event) w)) in
  (wire w3 = wire w ++ [fetch channel ts; ChatPostMessage channel (Some ts) reply]
   ∧ tasks w3 !! i = Some (Done (Completed tt))
   ∧ includes reply (mention author) = true
   ∧ includes reply (mention reviewer) = true)
  ∧ (wire e3 = wire w ++ [fetch channel ts;
                          ChatPostMessage channel (Some ts) earlier_reply]
     ∧ tasks e3 !! i = Some (Done (Completed tt))
     ∧ includes earlier_reply (mention author) = true).
Proof.
  intros i event reply earlier_reply Ha Hbot Hauthor w3 e3.
  pose proof (getAuthorIdFromText_truthy _ _ Hauthor) as Htruthy.
  destruct (comment_own_mentions author reviewer) as [Hm1 Hm2].
  pose proof (earlier_comment_own_mentions author) as Hm3.
  split; cycle 1.
  { split_and!; [| |done]; clear Hm1 Hm2 Hm3; subst reply earlier_reply event;
      (destruct author as [|c0 author]; [done|]);
      subst e3; unfold spawn, EarlierBot.reaction_added; cbn;
      unfold settle at 2; cbn [tasks store wire];
      rewrite list_lookup_middle by done;
      unfold fetch in *; cbn [resp] in *; rewrite Ha;
      unfold EarlierBot.dispatch; cbn; rewrite Hbot;
      unfold opt_eqb at 1; rewrite bool_decide_eq_true_2 by done; cbn;
      rewrite Hauthor, str_eqb_refl; cbn;
      unfold settle; cbn;
      rewrite list_lookup_insert_eq by (rewrite length_app; simpl; lia).
    - destruct (a' _); cbn; by rewrite <- !app_assoc.
    - destruct (a' _); cbn; apply list_lookup_insert_eq;
        rewrite length_insert, length_app; simpl; lia. }
  clear Hm3. subst event.
  split_and!; [| |done|done]; clear Hm1 Hm2; subst reply;
    (destruct author as [|c0 author]; [done|]);
    subst w3; cbn [play foldl tick]; rewrite spawn_reaction_added;
    unfold settle at 2; cbn [tasks store wire];
    rewrite list_lookup_middle by done;
    unfold fetch in *; cbn [resp] in *; rewrite Ha;
    unfold in_flight, guarded; cbn; rewrite Hbot;
    unfold opt_eqb at 1; rewrite bool_decide_eq_true_2 by done; cbn;
    rewrite Hauthor, str_eqb_refl; cbn;
    unfold settle; cbn;
    rewrite list_lookup_insert_eq by (rewrite length_app; simpl; lia).
  - destruct (a' _); cbn; by rewrite <- !app_assoc.
  - destruct (a' _); cbn; apply list_lookup_insert_eq;
      rewrite length_insert, length_app; simpl; lia.
Qed.

Lemma comment_reply_mentions_author_and_reviewer_witness :
  let anchor := announced "https://github.com/x/y/pull/1" "U1" "large" in
  let a := slack (Some [anchor]) (Some W0) None None in
  a (fetch C0 T0) = Fulfilled (Some [anchor])
  ∧ msg_bot_id anchor = myBotId (store (boot bot_store))
  ∧ getAuthorIdFromText (or_else (msg_text anchor) []) = Some U1
  ∧ wire (play [ReactionAdded (reaction_on C0 T0 REACTIONS_COMMENT U2);
                Settle 0 a; Settle 0 a] (boot bot_store))
    = [fetch C0 T0; ChatPostMessage C0 (Some T0) (MESSAGES_COMMENT_OWN U1 U2)].
Proof.
  assert (Hauthor : getAuthorIdFromText
                      (or_else (msg_text (announced "https://github.com/x/y/pull/1"
                                            "U1" "large")) []) = Some U1).
  { vm_compute. reflexivity. }
  split; [reflexivity|]. split; [reflexivity|]. split; [exact Hauthor|].
  exact (proj1 (proj1 (comment_reply_mentions_author_and_reviewer (boot bot_store)
                  C0 T0 U2 U1
                  (slack (Some [announced "https://github.com/x/y/pull/1" "U1" "large"])
                     (Some W0) None None)
                  (slack (Some [announced "https://github.com/x/y/pull/1" "U1" "large"])
                     (Some W0) None None)
                  _ [] eq_refl eq_refl Hauthor))).
Defined.

(** The identity check, as the code makes it: when the fetch returns no
    message, or a message whose [bot_id] differs from the recorded
    identity, the handler ends without a call and without a timer. *)
Lemma reaction_added_ignores_other_messages
    (w : World) (channel ts reaction user : jstring) (a : Answer)
    (history : option (list Message)) :
  let i := length (tasks w) in
  a (fetch channel ts) = Fulfilled history →
  (first_message history = None
   ∨ ∃ m, first_message history = Some m ∧ msg_bot_id m ≠ myBotId (store w)) →
  let w2 := play [ReactionAdded (reaction_on channel ts reaction user); Settle i a] w in
  tasks w2 !! i = Some (Done (Completed tt))
  ∧ wire w2 = wire w ++ [fetch channel ts]
  ∧ settled_quietly (store w) (store w2).
Proof.
  intros i Ha Hother w2. subst w2. cbn [play foldl tick].
  rewrite spawn_reaction_added. unfold settle. cbn [tasks store wire].
  rewrite list_lookup_middle by done.
  unfold fetch in *. cbn [resp] in *. rewrite Ha.
  unfold in_flight, guarded. cbn.
  destruct Hother as [-> | (m & -> & Hbot)]; cbn.
  - split_and!; [|by rewrite app_nil_r|done].
    apply list_lookup_insert_eq. rewrite length_app. simpl. lia.
  - unfold opt_eqb. rewrite bool_decide_eq_false_2 by done. cbn.
    split_and!; [|by rewrite app_nil_r|done].
    apply list_lookup_insert_eq. rewrite length_app. simpl. lia.
Qed.

(** C10. The code at the failing input: [auth.test] failed at start-up, so
    no identity is recorded; a person's message, which has no [bot_id],
    passes the identity check.  A [speech_balloon] reaction on it is
    answered with a reply, and a [merged] reaction posts the warning and
    arms a deletion timer. *)
Theorem unverified_identity_honors_foreign_message :
  let s0 := final (run (start_server None) (alone (λ _, auth_outage)) 0 initial_store) in
  let found := slack (Some [note]) (Some W0) None None in
  let commented :=
    play [ReactionAdded (reaction_on C0 T0 REACTIONS_COMMENT U2);
          Settle 0 found; Settle 0 found] (boot s0) in
  let merged :=
    play [ReactionAdded (reaction_on C0 T0 REACTIONS_MERGED U2);
          Settle 0 found; Settle 0 found] (boot s0) in
  myBotId s0 = None
  ∧ msg_bot_id note = None
  ∧ wire commented = [fetch C0 T0; ChatPostMessage C0 (Some T0) MESSAGES_COMMENT_OTHER]
  ∧ wire merged = [fetch C0 T0; ChatPostMessage C0 (Some T0) MESSAGES_MERGED_WARNING]
  ∧ deletionTimers (store merged) !! key_of C0 T0
    = Some {| timeoutId := 0; warnTs := Some W0 |}
  ∧ is_Some (timeouts (store merged) !! 0).
Proof. vm_compute. split_and!; try done. by eexists. Qed.

End NotificationTheorems.

(* ================================================================== *)
(** ** Start-up *)
(* ================================================================== *)

Module StartupTheorems.

(** The check of the later variant, on the process environment as it is
    before the [.env] file is read: if the bot token or the signing secret
    is missing there (undefined or empty), loading the module exits with
    code 1 and nothing is served; if both are there, the app is built with
    them and the first thing the boot sequence does is to start the
    server. *)
Theorem startup_requires_both_secrets (env file : gmap string jstring) :
  (has_secret env "SLACK_BOT_TOKEN" = false
   ∨ has_secret env "SLACK_SIGNING_SECRET" = false →
   load_module env file = Exit 1)
  ∧ (has_secret env "SLACK_BOT_TOKEN" = true →
     has_secret env "SLACK_SIGNING_SECRET" = true →
     ∃ secret token port,
       env !! "SLACK_SIGNING_SECRET"%string = Some secret
       ∧ env !! "SLACK_BOT_TOKEN"%string = Some token
       ∧ load_module env file = Serve secret (Some token) (start_server port)
       ∧ ∀ s, ∃ k, advance (start_server port) s = (s, Pending (AppStart port) k)).
Proof.
  unfold has_secret, load_module. split.
  - intros [-> | ->]; [done|]. by rewrite orb_true_r.
  - intros Htoken Hsecret. rewrite Htoken, Hsecret. cbn [negb orb].
    destruct (env !! "SLACK_SIGNING_SECRET"%string) as [secret|] eqn:Es; [|done].
    destruct (env !! "SLACK_BOT_TOKEN"%string) as [token|] eqn:Et; [|done].
    exists secret, token, (dotenv_config file env !! "PORT"%string).
    unfold dotenv_config.
    rewrite (lookup_union_Some_l env file _ _ Es), (lookup_union_Some_l env file _ _ Et).
    unfold or_else. rewrite Hsecret. split_and!; [done..|].
    intros s. by eexists.
Qed.

Lemma startup_requires_both_secrets_witness :
  has_secret ∅ "SLACK_BOT_TOKEN" = false
  ∧ load_module ∅ ∅ = Exit 1
  ∧ has_secret configured "SLACK_BOT_TOKEN" = true
  ∧ has_secret configured "SLACK_SIGNING_SECRET" = true
  ∧ ∃ secret token port,
      load_module configured ∅ = Serve secret (Some token) (start_server port).
Proof.
  assert (H0 : has_secret ∅ "SLACK_BOT_TOKEN" = false) by reflexivity.
  assert (H1 : has_secret configured "SLACK_BOT_TOKEN" = true)
    by (vm_compute; reflexivity).
  assert (H2 : has_secret configured "SLACK_SIGNING_SECRET" = true)
    by (vm_compute; reflexivity).
  split; [exact H0|].
  split; [exact (proj1 (startup_requires_both_secrets ∅ ∅) (or_introl H0))|].
  split; [exact H1|]. split; [exact H2|].
  destruct (proj2 (startup_requires_both_secrets configured ∅) H1 H2)
    as (secret & token & port & _ & _ & Hload & _).
  exists secret, token, port. exact Hload.
Defined.

(** C9. The code at the failing input: both secrets are in the [.env] file,
    as the README prescribes, and not in the process environment.  The
    later variant checks the process environment before [dotenv.config()]
    has read the file, and exits with code 1, whatever the file holds.  The
    earlier variant, which calls [dotenv.config()] first, builds the app
    with the secrets of the file; so does the later one when the same
    secrets are in the process environment. *)
Theorem dotenv_secrets_are_checked_too_early :
  has_secret configured "SLACK_BOT_TOKEN" = true
  ∧ has_secret configured "SLACK_SIGNING_SECRET" = true
  ∧ load_module ∅ configured = Exit 1
  ∧ (∀ file, load_module ∅ file = Exit 1)
  ∧ EarlierBot.load_module ∅ configured
    = Serve (js "shh") (Some (js "xoxb-1")) (start_server None)
  ∧ load_module configured ∅
    = Serve (js "shh") (Some (js "xoxb-1")) (start_server None).
Proof.
  split_and!; try (vm_compute; reflexivity).
Qed.

End StartupTheorems.

(* ================================================================== *)
(** ** End-to-end scenarios *)
(* ================================================================== *)

Module Scenarios.

(** [/pr https://github.com/x/y/pull/1 large] by [U1]. *)
Example pr_command_announces :
  let command := {| cmd_text := js "https://github.com/x/y/pull/1 large";
                    cmd_user_id := U1; cmd_channel_id := C0 |} in
  let w := play [SlashPr command; Settle 0 in_thread] (boot bot_store) in
  ∃ text,
    wire w = [Ack; ChatPostMessage C0 None text]
    ∧ includes text (js "Author: <@U1>") = true
    ∧ includes text (js "Complexity: 🟥 *Large*") = true
    ∧ includes text (js "https://github.com/x/y/pull/1") = true.
Proof. eexists. vm_compute. done. Qed.

(** A [merged] reaction stays until the timer fires: the notification of
    the bot, the announcement and the warning are deleted, the reply of the
    person is not, and no deletion is pending any more. *)
Example merged_reaction_cleans_up :
  let w := play [ReactionAdded (reaction_on C0 T0 REACTIONS_MERGED U2);
                 Settle 0 in_thread; Settle 0 in_thread;
                 Fire 0;
                 Settle 1 in_thread; Settle 1 in_thread; Settle 1 in_thread;
                 Settle 1 in_thread; Settle 1 in_thread] (boot bot_store) in
  filter (λ c, is_post c = false) (wire w)
  = [fetch C0 T0; ReactionsGet C0 T0; ConversationsReplies C0 T0 100;
     ChatDelete C0 (Some (js "1700000000.000150"));
     ChatDelete C0 (Some T0);
     ChatDelete C0 (Some W0)]
  ∧ deletionTimers (store w) = ∅
  ∧ timeouts (store w) = ∅
  ∧ processingReactions (store w) = ∅.
Proof. vm_compute. done. Qed.

(** The [merged] reaction is removed inside the delay: the timer is
    cancelled and the warning deleted; nothing else is. *)
Example merged_reaction_removed_in_time :
  let w := play [ReactionAdded (reaction_on C0 T0 REACTIONS_MERGED U2);
                 Settle 0 in_thread; Settle 0 in_thread;
                 ReactionRemoved (reaction_on C0 T0 REACTIONS_MERGED U2);
                 Settle 1 in_thread;
                 Fire 0] (boot bot_store) in
  filter (λ c, is_post c = false) (wire w) = [fetch C0 T0; ChatDelete C0 (Some W0)]
  ∧ deletionTimers (store w) = ∅
  ∧ timeouts (store w) = ∅.
Proof. vm_compute. done. Qed.

End Scenarios.

(* ================================================================== *)
(** ** Further properties: patterns and texts *)
(* ================================================================== *)

Module PatternFacts.
Import TextFacts.

Local Open Scope N_scope.

Lemma match_here_word (i : bool) (w text : jstring) (re : list Node) (cap s : jstring) :
  Forall2 (λ p c, atom_match i (Chr p) c = true) w text →
  match_here i (word w ++ re) cap (text ++ s) = match_here i re cap s.
Proof.
  induction 1 as [|p c w text Hpc _ IH]; [done|].
  cbn [match_here word map app]. by rewrite Hpc.
Qed.

Lemma match_here_star (i : bool) (a : Atom) (re : list Node) (cap w s : jstring) (d : N)
    (x : jstring) :
  Forall (λ c, atom_match i a c = true) w →
  atom_match i a d = false →
  match_here i re cap (d :: s) = Some x →
  match_here i (Star a :: re) cap (w ++ d :: s) = Some x.
Proof.
  intros Hw Hd Hx. cbn [match_here word map app]. induction Hw as [|c w Hc _ IH]; cbn [match_here word map app].
  - by rewrite Hd.
  - rewrite Hc. by rewrite IH.
Qed.

Lemma match_here_group (i : bool) (a : Atom) (re : list Node) (cap id s : jstring) (d : N)
    (x : jstring) :
  id ≠ [] →
  Forall (λ c, atom_match i a c = true) id →
  atom_match i a d = false →
  match_here i re id (d :: s) = Some x →
  match_here i (GroupPlus a :: re) cap (id ++ d :: s) = Some x.
Proof.
  intros Hne Hid Hd Hx. destruct id as [|c id]; [done|].
  apply Forall_cons in Hid as [Hc Hid]. cbn [match_here word map app]. rewrite Hc.
  clear Hne. change (c :: id) with ([c] ++ id) in Hx. revert Hx. generalize [c] as acc.
  induction Hid as [|e id He _ IH]; intros acc Hx; cbn [match_here word map app].
  - rewrite Hd. by rewrite app_nil_r in Hx.
  - rewrite He. rewrite (IH (acc ++ [e])); [done|]. by rewrite <- app_assoc.
Qed.

(** A prefix in which no code unit can start a match is skipped. *)
Lemma re_search_skip (i : bool) (p0 : N) (re : list Node) (p s : jstring) :
  Forall (λ c, atom_match i (Chr p0) c = false) p →
  re_search_nodes i (One (Chr p0) :: re) (p ++ s)
  = re_search_nodes i (One (Chr p0) :: re) s.
Proof.
  induction 1 as [|c p Hc _ IH]; [done|].
  change ((c :: p) ++ s) with (c :: (p ++ s)). cbn [re_search_nodes].
  cbn [match_here]. by rewrite Hc.
Qed.

(** A literal word cannot match across a code unit [b] that fits none of
    its first letters, in a text none of whose units fits the last of them. *)
Lemma match_here_word_blocked (i : bool) (w1 : jstring) (q : N) (re : list Node)
    (cap u s : jstring) (b : N) :
  Forall (λ c, atom_match i (Chr q) c = false) u →
  Forall (λ p, atom_match i (Chr p) b = false) (w1 ++ [q]) →
  match_here i (word (w1 ++ [q]) ++ re) cap (u ++ b :: s) = None.
Proof.
  intros Hu Hb. revert u Hu. induction w1 as [|p w1 IH]; intros u Hu.
  - apply (Forall_inv (l := [])) in Hb. cbv beta in Hb. destruct Hu as [|c u Hc _]; cbn [match_here word map app].
    + by rewrite Hb.
    + by rewrite Hc.
  - apply Forall_cons in Hb as [Hp Hb]. cbv beta in Hp. destruct Hu as [|c u Hc Hu]; cbn [match_here word map app].
    + by rewrite Hp.
    + destruct (atom_match i (Chr p) c); [|done]. by apply IH.
Qed.

Lemma re_search_word_blocked (i : bool) (p0 : N) (w1 : jstring) (q : N) (re : list Node)
    (u s : jstring) (b : N) :
  Forall (λ c, atom_match i (Chr q) c = false) u →
  Forall (λ p, atom_match i (Chr p) b = false) ((p0 :: w1) ++ [q]) →
  re_search_nodes i (word ((p0 :: w1) ++ [q]) ++ re) (u ++ b :: s)
  = re_search_nodes i (word ((p0 :: w1) ++ [q]) ++ re) (b :: s).
Proof.
  intros Hu Hb. induction Hu as [|c u Hc Hu IH]; [done|].
  change ((c :: u) ++ b :: s) with (c :: (u ++ b :: s)).
  cbn [re_search_nodes].
  change (c :: (u ++ b :: s)) with ((c :: u) ++ b :: s) at 1.
  rewrite (match_here_word_blocked i (p0 :: w1) q re [] (c :: u) s b); [done| |done].
  by constructor.
Qed.

Lemma match_here_capture_units (P : N → Prop) (i : bool) (re : list Node) :
  (∀ a c, GroupPlus a ∈ re → atom_match i a c = true → P c) →
  ∀ cap s x, Forall P cap → match_here i re cap s = Some x → Forall P x.
Proof.
  induction re as [|node re IH]; intros Hre cap s x Hcap Hm.
  - simpl in Hm. congruence.
  - assert (Hre' : ∀ a c, GroupPlus a ∈ re → atom_match i a c = true → P c).
    { intros a c Hin. apply Hre. by right. }
    specialize (IH Hre').
    destruct node as [a|a|a]; cbn [match_here] in Hm.
    + destruct s as [|c s]; [done|]. destruct (atom_match i a c); [|done].
      by apply (IH cap s).
    + revert Hm. induction s as [|c s IHs]; intros Hm.
      * by apply (IH cap []).
      * destruct (atom_match i a c); [|by apply (IH cap (c :: s))].
        match type of Hm with
        | match ?t with _ => _ end = _ => destruct t eqn:Hstar
        end.
        -- apply IHs. congruence.
        -- by apply (IH cap (c :: s)).
    + destruct s as [|c s]; [done|]. destruct (atom_match i a c) eqn:Hc; [|done].
      assert (Hacc : Forall P [c]).
      { constructor; [|done]. apply (Hre a); [by left|done]. }
      revert Hm Hacc. generalize [c] as acc. clear Hc.
      induction s as [|d s IHs]; intros acc Hm Hacc.
      * by apply (IH acc []).
      * destruct (atom_match i a d) eqn:Hd; [|by apply (IH acc (d :: s))].
        match type of Hm with
        | match ?t with _ => _ end = _ => destruct t eqn:Hplus
        end.
        -- apply (IHs (acc ++ [d])); [congruence|].
           apply Forall_app. split; [done|]. constructor; [|done].
           apply (Hre a); [by left|done].
        -- by apply (IH acc (d :: s)).
Qed.

Lemma re_search_capture_units (P : N → Prop) (re : RegExp) (s x : jstring) :
  (∀ a c, GroupPlus a ∈ nodes re → atom_match (ignoreCase re) a c = true → P c) →
  re_search re s = Some x → Forall P x.
Proof.
  unfold re_search. intros Hre. induction s as [|c s IH]; cbn [re_search_nodes].
  - destruct (match_here _ _ _ _) eqn:Hm; [|done].
    intros [= ->]. by eapply (match_here_capture_units P); eauto.
  - destruct (match_here _ _ _ _) eqn:Hm; [|done].
    intros [= ->]. by eapply (match_here_capture_units P); eauto.
Qed.

Lemma upper_alnum_ci (c : N) :
  atom_match true UpperAlnum c = is_alnum c.
Proof.
  unfold atom_match, canonicalize, upper_unit, is_alnum.
  destruct (is_ascii_lower c) eqn:E.
  - rewrite orb_true_r. cbn [orb].
    unfold is_ascii_lower in E. apply andb_true_iff in E as [E1 E2].
    apply N.leb_le in E1, E2. unfold is_ascii_upper.
    assert ((0x41 <=? c - 0x20) = true) as -> by (apply N.leb_le; lia).
    assert ((c - 0x20 <=? 0x5A) = true) as -> by (apply N.leb_le; lia).
    reflexivity.
  - by rewrite orb_false_r.
Qed.

Lemma upper_alnum_cs (c : N) :
  atom_match false UpperAlnum c = is_upper_alnum c.
Proof. reflexivity. Qed.

Lemma group_of_author_regex (a : Atom) :
  GroupPlus a ∈ nodes author_regex → a = UpperAlnum.
Proof.
  assert (H : Forall (λ n, ∀ a, n = GroupPlus a → a = UpperAlnum) (nodes author_regex)).
  { let l := eval vm_compute in (nodes author_regex) in
    change (nodes author_regex) with l.
    repeat constructor; intros; congruence. }
  intros Hin. by apply (proj1 (Forall_forall _ _) H _ Hin).
Qed.

Lemma re_search_here (i : bool) (re : list Node) (s x : jstring) :
  match_here i re [] s = Some x → re_search_nodes i re s = Some x.
Proof. intros H. destruct s; cbn [re_search_nodes]; by rewrite H. Qed.

Lemma author_regex_nodes :
  nodes author_regex
  = word (js "Author:") ++ Star Space :: word (js "<@")
      ++ GroupPlus UpperAlnum :: word (js ">") ++ [].
Proof. reflexivity. Qed.

Lemma author_regex_head :
  ∃ re, nodes author_regex = One (Chr 65) :: re.
Proof. by eexists. Qed.

Lemma author_line_matches (id rest : jstring) :
  id ≠ [] →
  Forall (λ c, is_alnum c = true) id →
  match_here true (nodes author_regex) []
    (js "Author: <@" ++ id ++ js ">" ++ rest) = Some id.
Proof.
  intros Hne Hid. rewrite author_regex_nodes.
  assert (js "Author: <@" = js "Author:" ++ [32] ++ js "<@") as ->
    by (vm_compute; reflexivity).
  assert (js ">" = [62]) as -> by (vm_compute; reflexivity).
  rewrite <- !app_assoc.
  rewrite match_here_word.
  2:{ vm_compute. repeat constructor. }
  apply (match_here_star true Space _ [] [32] _ 60); [by repeat constructor|done|].
  change (60 :: ?s) with (js "<@" ++ tail s) at 1.
  assert (js "<@" = [60; 64]) as -> by (vm_compute; reflexivity).
  cbn [app tail].
  change (60 :: 64 :: ?s) with ([60; 64] ++ s).
  rewrite match_here_word.
  2:{ repeat constructor. }
  apply match_here_group; [done| |done|done].
  eapply Forall_impl; [exact Hid|]. intros c Hc. by rewrite upper_alnum_ci.
Qed.

Lemma not_capital_a (p : jstring) :
  forallb (λ c, negb (atom_match true (Chr 65) c)) p = true →
  Forall (λ c, atom_match true (Chr 65) c = false) p.
Proof.
  intros H. apply Forall_forall. intros c Hc.
  apply negb_true_iff. rewrite forallb_forall in H. apply H.
  by apply list_elem_of_In.
Qed.

Lemma re_search_next (i : bool) (re : list Node) (c : N) (s : jstring) :
  match_here i re [] (c :: s) = None →
  re_search_nodes i re (c :: s) = re_search_nodes i re s.
Proof. intros H. cbn [re_search_nodes]. by rewrite H. Qed.

Lemma comment_line_matches (reviewer rest : jstring) :
  reviewer ≠ [] →
  Forall (λ c, is_upper_alnum c = true) reviewer →
  match_here false (nodes reviewerRegex) []
    (js "left on your PR by <@" ++ reviewer ++ 62 :: rest) = Some reviewer.
Proof.
  intros Hne Hid.
  change (nodes reviewerRegex)
    with (word (js "left on your PR by <@") ++ GroupPlus UpperAlnum :: word [62] ++ []).
  rewrite match_here_word.
  2:{ vm_compute. repeat constructor. }
  by apply match_here_group.
Qed.

Lemma generic_comment_names_nobody :
  re_search reviewerRegex MESSAGES_COMMENT_OTHER = None.
Proof. vm_compute. reflexivity. Qed.




Lemma split_ws_from_pieces (s : jstring) :
  ∀ (insep : bool) (cur : jstring),
    no_space cur → Forall no_space (split_ws_from insep cur s).
Proof.
  unfold no_space.
  induction s as [|c s IH]; intros insep cur Hcur; cbn [split_ws_from].
  - constructor; [|done]. by apply Forall_rev.
  - destruct (is_space c) eqn:Hc.
    + destruct insep; [by apply IH|].
      constructor; [by apply Forall_rev|]. by apply IH.
    + apply IH. by constructor.
Qed.

Lemma split_ws_from_word (s : jstring) :
  ∀ cur : jstring, no_space s → split_ws_from false cur s = [rev cur ++ s].
Proof.
  unfold no_space.
  induction s as [|c s IH]; intros cur Hs; cbn [split_ws_from].
  - by rewrite app_nil_r.
  - apply Forall_cons in Hs as [Hc Hs]. rewrite Hc, IH by done.
    cbn [rev]. by rewrite <- app_assoc.
Qed.

Lemma split_ws_from_gap (ws b : jstring) :
  Forall (λ c, is_space c = true) ws → no_space b →
  split_ws_from true [] (ws ++ b) = [b].
Proof.
  unfold no_space. intros Hws Hb.
  induction Hws as [|c ws Hc _ IH]; cbn [app split_ws_from].
  - destruct b as [|d b]; [done|]. cbn [split_ws_from].
    apply Forall_cons in Hb as [Hd Hb]. rewrite Hd.
    by rewrite split_ws_from_word.
  - by rewrite Hc.
Qed.

Lemma split_ws_from_two (a ws b : jstring) (c : N) :
  ∀ cur : jstring,
    no_space a → is_space c = true → Forall (λ c, is_space c = true) ws → no_space b →
    split_ws_from false cur (a ++ c :: ws ++ b) = [rev cur ++ a; b].
Proof.
  unfold no_space.
  induction a as [|d a IH]; intros cur Ha Hc Hws Hb; cbn [app split_ws_from].
  - rewrite Hc, split_ws_from_gap by done. by rewrite app_nil_r.
  - apply Forall_cons in Ha as [Hd Ha]. rewrite Hd, IH by done.
    cbn [rev]. by rewrite <- app_assoc.
Qed.

Lemma split_ws_head (s : jstring) :
  ∃ p rest, split_ws s = p :: rest
            ∧ (p = [] ↔ s = [] ∨ ∃ c s', s = c :: s' ∧ is_space c = true).
Proof.
  unfold split_ws.
  assert (H : ∀ s cur, ∃ p rest, split_ws_from false cur s = (rev cur ++ p) :: rest
                ∧ (p = [] ↔ s = [] ∨ ∃ c s', s = c :: s' ∧ is_space c = true)).
  { clear s. induction s as [|c s IH]; intros cur; cbn [split_ws_from].
    - exists [], []. rewrite app_nil_r. split; [done|]. split; [by left|done].
    - destruct (is_space c) eqn:Hc.
      + exists [], (split_ws_from true [] s). rewrite app_nil_r. split; [done|].
        split; [|done]. intros _. right. by exists c, s.
      + destruct (IH (c :: cur)) as (p & rest & -> & _).
        exists (c :: p), rest. cbn [rev]. rewrite <- app_assoc. split; [done|].
        split; [done|]. intros [?|(c' & s' & [= -> ->] & Hc')]; [done|congruence]. }
  destruct (H s []) as (p & rest & Hp & Hiff). by exists p, rest.
Qed.

End PatternFacts.

(* ================================================================== *)
(** ** Further properties: composition of runs *)
(* ================================================================== *)

Module CompositionFacts.
Import AsyncFacts.

Lemma seq_run_finished {A B : Type} (s : Store) (o : Outcome A) (r : Run B) :
  seq_run (finished s o) r = r.
Proof. by destruct r. Qed.

Lemma seq_run_written {A B : Type} (w : Store * Store) (r1 : Run A) (r2 : Run B) :
  seq_run (written w r1) r2 = written w (seq_run r1 r2).
Proof. reflexivity. Qed.

Lemma seq_run_awaited {A B : Type} (c : ApiCall) (i : Store * Store)
    (r1 : Run A) (r2 : Run B) :
  seq_run (awaited c i r1) r2 = awaited c i (seq_run r1 r2).
Proof. reflexivity. Qed.

Lemma seq_run_assoc {A B C : Type} (r1 : Run A) (r2 : Run B) (r3 : Run C) :
  seq_run (seq_run r1 r2) r3 = seq_run r1 (seq_run r2 r3).
Proof. unfold seq_run. cbn. by rewrite !app_assoc. Qed.

#[export] Instance bind_hom {A B : Type} (f : A → Async B) :
  Homomorphic (λ m, bind m f).
Proof. by split. Qed.
#[export] Instance try_catch_hom {A : Type} (h : Error → Async A) :
  Homomorphic (λ m, try_catch m h).
Proof. by split. Qed.
#[export] Instance try_finally_hom {A : Type} (c : Async unit) :
  Homomorphic (λ m : Async A, try_finally m c).
Proof. by split. Qed.
#[export] Instance function_body_hom : Homomorphic function_body.
Proof. by split. Qed.
Lemma compose_hom {A B D : Type} (C1 : Async B → Async D) (C2 : Async A → Async B) :
  Homomorphic C1 → Homomorphic C2 → Homomorphic (λ m, C1 (C2 m)).
Proof.
  intros H1 H2. split; intros.
  - by rewrite (hom_get (C := C2)), (hom_get (C := C1)).
  - by rewrite (hom_put (C := C2)), (hom_put (C := C1)).
  - by rewrite (hom_await (C := C2)), (hom_await (C := C1)).
Qed.

(** A statement in a context runs first; the context then sees only how it
    completed. *)
Lemma run_focus {A B : Type} (C : Async A → Async B) (HC : Homomorphic C)
    (p : Async A) (env : nat → Env) :
  ∀ (n : nat) (s : Store),
    run (C p) env n s
    = seq_run (run p env n s)
        (run (C (stub (outcome (run p env n s)))) env
           (n + length (calls (run p env n s))) (final (run p env n s))).
Proof.
  induction p as [a|c|k IH|s0 k IH|c k IH]; intros n s.
  - cbn. by rewrite seq_run_finished, Nat.add_0_r.
  - cbn. by rewrite seq_run_finished, Nat.add_0_r.
  - rewrite hom_get. cbn [run]. apply IH.
  - rewrite hom_put. cbn [run]. by rewrite IH, seq_run_written.
  - rewrite hom_await. cbn [run]. rewrite IH, seq_run_awaited.
    cbn [awaited calls length outcome final]. by rewrite Nat.add_succ_r.
Qed.

(** The context resumes the statement in its hole with the settled
    promise. *)
Lemma run_await {A B : Type} (C : Async A → Async B) (HC : Homomorphic C)
    (c : ApiCall) (k : Settled (resp c) → Async A) (env : nat → Env)
    (n : nat) (s : Store) :
  run (C (Await c k)) env n s
  = awaited c (s, interfere (env n) s)
      (run (C (k (answer (env n) c))) env (S n) (interfere (env n) s)).
Proof. by rewrite hom_await. Qed.

Lemma deletion_frame_hom (cl : Closure) : Homomorphic (deletion_frame cl).
Proof. by split. Qed.
Lemma cleanup_frame_hom (cl : Closure) : Homomorphic (cleanup_frame cl).
Proof. by split. Qed.

Section Predicates.
Context (P : ApiCall → Prop).

Lemma calls_only_run {A : Type} (p : Async A) (env : nat → Env) :
  calls_only P p → ∀ n s, Forall P (calls (run p env n s)).
Proof.
  induction p as [a|c|k IH|s0 k IH|c k IH]; intros Hp n s; cbn.
  - constructor.
  - constructor.
  - apply IH, Hp.
  - by apply IH.
  - destruct Hp as [Hc Hk]. constructor; [done|]. by apply IH.
Qed.

Lemma calls_only_bind {A B : Type} (m : Async A) (f : A → Async B) :
  calls_only P m → (∀ a, calls_only P (f a)) → calls_only P (bind m f).
Proof.
  intros Hm Hf. induction m as [a|c|k IH|s0 k IH|c k IH]; cbn in *.
  - apply Hf.
  - done.
  - intros s. by apply IH.
  - by apply IH.
  - destruct Hm as [Hc Hk]. split; [done|]. intros r. by apply IH.
Qed.

Lemma calls_only_try_catch {A : Type} (m : Async A) (h : Error → Async A) :
  calls_only P m → (∀ e, calls_only P (h e)) → calls_only P (try_catch m h).
Proof.
  intros Hm Hh. induction m as [a|[e|]|k IH|s0 k IH|c k IH]; cbn in *.
  - done.
  - apply Hh.
  - done.
  - intros s. by apply IH.
  - by apply IH.
  - destruct Hm as [Hc Hk]. split; [done|]. intros r. by apply IH.
Qed.

Lemma calls_only_try_finally {A : Type} (m : Async A) (c : Async unit) :
  calls_only P m → calls_only P c → calls_only P (try_finally m c).
Proof.
  intros Hm Hc. induction m as [a|x|k IH|s0 k IH|c0 k IH]; cbn in *.
  - by apply calls_only_bind.
  - by apply calls_only_bind.
  - intros s. by apply IH.
  - by apply IH.
  - destruct Hm as [Hc0 Hk]. split; [done|]. intros r. by apply IH.
Qed.

Lemma calls_only_function_body (m : Async unit) :
  calls_only P m → calls_only P (function_body m).
Proof.
  intros Hm. induction m as [a|[e|]|k IH|s0 k IH|c k IH]; cbn in *; try done.
  - intros s. by apply IH.
  - by apply IH.
  - destruct Hm as [Hc Hk]. split; [done|]. intros r. by apply IH.
Qed.

Lemma calls_only_when (b : bool) (p : Async unit) :
  calls_only P p → calls_only P (when b p).
Proof. by destruct b. Qed.

Lemma calls_only_for_of {X : Type} (xs : list X) (body : X → Async unit) :
  (∀ x, calls_only P (body x)) → calls_only P (for_of xs body).
Proof.
  intros Hb. induction xs as [|x xs IH]; cbn; [done|].
  by apply calls_only_bind.
Qed.

End Predicates.

Lemma issues_at_most_run {A : Type} (f : ApiCall → bool) (p : Async A) (env : nat → Env) :
  ∀ b, issues_at_most f b p →
  ∀ n s, length (filter (λ c, f c = true) (calls (run p env n s))) ≤ b.
Proof.
  induction p as [a|c|k IH|s0 k IH|c k IH]; intros b Hp n s;
    cbn [run finished written awaited calls].
  - cbn. lia.
  - cbn. lia.
  - by apply IH.
  - by apply IH.
  - cbn [issues_at_most] in Hp. destruct (f c) eqn:Hf.
    + rewrite filter_cons_True by done. destruct b as [|b]; [done|].
      cbn [length]. apply le_n_S. by apply IH.
    + rewrite filter_cons_False by (by rewrite Hf). by apply IH.
Qed.

Lemma filter_any_call (l : list ApiCall) : filter (λ c, any_call c = true) l = l.
Proof.
  induction l as [|c l IH]; [done|]. rewrite filter_cons_True by done. by rewrite IH.
Qed.

Lemma calls_only_await (P : ApiCall → Prop) (c : ApiCall) : P c → calls_only P (await c).
Proof. intros Hc. split; [done|]. by intros [v|e]. Qed.

Lemma no_write_nil (ws : list (Store * Store)) :
  Forall (λ w, no_write w.1 w.2) ws → ws = [].
Proof. destruct ws as [|w ws]; [done|]. intros H. by apply Forall_cons in H as [[] _]. Qed.

Section WritesOnlyMore.
Context (R : Store → Store → Prop).

Lemma writes_only_run {A : Type} (p : Async A) (env : nat → Env) :
  ∀ n s, writes_only R p s → Forall (λ w, R w.1 w.2) (writes (run p env n s)).
Proof.
  induction p as [a|c|k IH|s0 k IH|c k IH]; intros n s Hp; cbn.
  - constructor.
  - constructor.
  - by apply IH.
  - destruct Hp as [Hw Hk]. constructor; [done|]. by apply IH.
  - apply IH, Hp.
Qed.

Lemma writes_only_try_catch {A : Type} (m : Async A) (h : Error → Async A) (s : Store) :
  writes_only R m s → (∀ e s', writes_only R (h e) s') →
  writes_only R (try_catch m h) s.
Proof.
  intros Hm Hh. revert s Hm.
  induction m as [a|[e|]|k IH|s0 k IH|c k IH]; intros s Hm; cbn in *.
  - done.
  - apply Hh.
  - done.
  - by apply IH.
  - destruct Hm as [Hw Hk]. split; [done|]. by apply IH.
  - intros r s'. by apply IH.
Qed.

Lemma writes_only_for_of {X : Type} (xs : list X) (body : X → Async unit) (s : Store) :
  (∀ x s', writes_only R (body x) s') → writes_only R (for_of xs body) s.
Proof.
  intros Hb. revert s. induction xs as [|x xs IH]; intros s; cbn; [done|].
  apply writes_only_bind; [apply Hb|]. intros _ s'. apply IH.
Qed.

End WritesOnlyMore.

End CompositionFacts.

(* ================================================================== *)
(** ** Further properties: the deferred deletion *)
(* ================================================================== *)

Module CleanupFacts.
Import AsyncFacts CompositionFacts.

(** One round of the cleanup loop: a reply of the bot is deleted, and the
    loop goes on whatever Slack answers. *)
Lemma run_delete_reply (channel ts : jstring) (m : Message) (rest : Async unit)
    (env : nat → Env) (n : nat) (s : Store) :
  run (bind (delete_reply channel ts m) (λ _, rest)) env n s
  = if own_reply (myBotId s) ts m
    then awaited (delete_of channel m) (s, interfere (env n) s)
           (run rest env (S n) (interfere (env n) s))
    else run rest env n s.
Proof.
  unfold delete_reply, own_reply.
  destruct (opt_eqb (msg_ts m) (Some ts)); cbn; [done|].
  destruct (opt_eqb (msg_bot_id m) (myBotId s) || opt_eqb (msg_user m) (myBotId s));
    cbn; [|done].
  by destruct (answer (env n) (ChatDelete channel (msg_ts m))) as [[]|e].
Qed.

(** The cleanup loop deletes the bot's replies, in order, whatever Slack
    answers, and nothing else. *)
Lemma for_of_delete_reply (channel ts : jstring) (env : nat → Env) (msgs : list Message) :
  identity_stable env →
  ∀ (n : nat) (s : Store),
    let r := run (for_of msgs (delete_reply channel ts)) env n s in
    outcome r = Completed tt
    ∧ calls r = map (delete_of channel)
                  (filter (λ m, own_reply (myBotId s) ts m = true) msgs)
    ∧ writes r = []
    ∧ myBotId (final r) = myBotId s.
Proof.
  intros Hid. induction msgs as [|m msgs IH]; intros n s r; subst r; [done|].
  cbn [for_of]. rewrite run_delete_reply.
  destruct (own_reply (myBotId s) ts m) eqn:Hown.
  - rewrite filter_cons_True by done.
    destruct (IH (S n) (interfere (env n) s)) as (Ho & Hc & Hw & Hb).
    rewrite Hid in Hc, Hb. cbn [awaited outcome calls writes final map].
    by rewrite Ho, Hc, Hw, Hb.
  - rewrite filter_cons_False by (by rewrite Hown). apply IH.
Qed.

(** After the thread cleanup: the parent, then the warning if the parent
    went. *)
Lemma run_delete_anchor (cl : Closure) (env : nat → Env) (n : nat) (s : Store) :
  let r := run (cleanup_frame cl skip) env n s in
  outcome r = Completed tt
  ∧ calls r = ChatDelete (cl_channel cl) (Some (cl_ts cl))
      :: (if fulfilled (answer (env n) (ChatDelete (cl_channel cl) (Some (cl_ts cl))))
             && truthy (cl_warn_ts cl)
          then [ChatDelete (cl_channel cl) (cl_warn_ts cl)] else []).
Proof.
  unfold cleanup_frame, deletion_frame, delete_anchor. cbn.
  destruct (answer (env n) _) as [[]|e]; cbn; [|done].
  destruct (truthy (cl_warn_ts cl)); cbn; [|done].
  by destruct (answer (env (S n)) _) as [[]|e].
Qed.

(** The deferred task up to its thread cleanup, the reaction still being
    present. *)
Lemma delayed_deletion_query (cl : Closure) (env : nat → Env) (s : Store)
    (info : option (option (list Reaction))) :
  answer (env 0) (ReactionsGet (cl_channel cl) (cl_ts cl)) = Fulfilled info →
  still_has_merged info = true →
  run (delayed_deletion cl) env 0 s
  = awaited (ReactionsGet (cl_channel cl) (cl_ts cl)) (s, interfere (env 0) s)
      (awaited (ConversationsReplies (cl_channel cl) (cl_ts cl) 100)
         (interfere (env 0) s, interfere (env 1) (interfere (env 0) s))
         (run (cleanup_frame cl
                 (of_settled (answer (env 1)
                    (ConversationsReplies (cl_channel cl) (cl_ts cl) 100))
                  ≫= λ replies, for_of (default [] replies)
                                  (delete_reply (cl_channel cl) (cl_ts cl))))
            env 2 (interfere (env 1) (interfere (env 0) s)))).
Proof.
  intros Hinfo Hmerged. unfold delayed_deletion.
  cbn [mbind Async_bind bind await run function_body try_finally try_catch].
  rewrite Hinfo. cbn [of_settled bind]. rewrite Hmerged. reflexivity.
Qed.

End CleanupFacts.

Module FootprintFacts.
Import AsyncFacts CompositionFacts.

Ltac enter := cbn; repeat lazymatch goal with |- ∀ _ : Store, _ => intro end.

Lemma deletion_frame_writes (cl : Closure) (env : nat → Env) (p : Async unit) :
  (∀ s, writes_only no_write p s) →
  ∀ n s, ∃ s',
    writes (run (deletion_frame cl p) env n s)
    = [(s', with_deletionTimers (λ m, delete (cl_key cl) m) s')].
Proof.
  intros Hp n s.
  rewrite (run_focus (deletion_frame cl) (deletion_frame_hom cl)).
  cbn [seq_run writes].
  rewrite (no_write_nil _ (writes_only_run no_write p env n s (Hp s))).
  eexists. by destruct (outcome (run p env n s)) as [[]|[e|]].
Qed.

Lemma delete_reply_quiet (channel ts : jstring) (m : Message) (s : Store) :
  writes_only no_write (delete_reply channel ts m) s.
Proof.
  unfold delete_reply. destruct (opt_eqb _ _); cbn; [done|].
  destruct (_ || _); cbn; [|done]. by intros [v|e] s'.
Qed.

End FootprintFacts.

(* ================================================================== *)
(** ** Further properties: delivery of reactions *)
(* ================================================================== *)

Module DeliveryFacts.
Import TextFacts AsyncFacts LoopFacts.

(** The last task, suspended, resumes. *)
Lemma settle_last (ts : list Status) (s : Store) (wr : list ApiCall) (a : Answer)
    (c : ApiCall) (k : Settled (resp c) → Async unit) (s' : Store) (st : Status) :
  advance (k (a c)) s = (s', st) →
  settle (length ts) a {| store := s; tasks := ts ++ [Pending c k]; wire := wr |}
  = {| store := s'; tasks := ts ++ [st]; wire := wr ++ pending_call st |}.
Proof.
  intros Hadv. unfold settle. cbn [tasks store wire].
  rewrite list_lookup_middle by done. rewrite Hadv.
  f_equal. rewrite <- (Nat.add_0_r (length ts)). by rewrite insert_app_r.
Qed.

(** A reaction is added and the fetch of the message settles. *)
Lemma settle_fetch (w : World) (channel ts reaction user : jstring) (a : Answer)
    (s' : Store) (st : Status) :
  advance (in_flight (reaction_on channel ts reaction user) channel ts
             (a (fetch channel ts)))
    (with_processingReactions (λ g : gset jstring, {[key_of channel ts]} ∪ g) (store w))
  = (s', st) →
  settle (length (tasks w)) a
    (spawn (reaction_added (reaction_on channel ts reaction user)) w)
  = {| store := s'; tasks := tasks w ++ [st];
       wire := (wire w ++ [fetch channel ts]) ++ pending_call st |}.
Proof.
  intros Hadv. rewrite spawn_reaction_added. by apply settle_last.
Qed.

Lemma opt_eqb_refl (x : option jstring) : opt_eqb x x = true.
Proof. by apply bool_decide_eq_true_2. Qed.

Lemma released_idemp (key : jstring) (s : Store) :
  released key (released key s) = released key s.
Proof.
  unfold released, with_processingReactions. cbn. f_equal.
  apply set_eq. set_solver.
Qed.

Lemma str_eqb_ne (x y : jstring) : x ≠ y → str_eqb x y = false.
Proof. intros. by apply bool_decide_eq_false_2. Qed.

(** The merge branch, resumed with the bot's own message: the warning is
    posted; when the post settles the timer is armed and recorded, or, if
    the post failed, nothing is. *)
Lemma advance_in_flight_merged (s : Store) (channel ts user : jstring)
    (m : Message) (rest : list Message) :
  msg_bot_id m = myBotId s →
  key_of channel ts ∈ processingReactions s →
  deletionTimers s !! key_of channel ts = None →
  ∃ K,
    advance (in_flight (reaction_on channel ts REACTIONS_MERGED user) channel ts
               (Fulfilled (Some (m :: rest)))) s
    = (s, Pending (ChatPostMessage channel (Some ts)
                     (warning_for (getAuthorIdFromText (or_else (msg_text m) [])))) K)
    ∧ (∀ warn s', advance (K (Fulfilled warn)) s'
                  = (released (key_of channel ts) (scheduled channel ts warn s'),
                     Done (Completed tt)))
    ∧ (∀ e s', advance (K (Rejected e)) s'
               = (released (key_of channel ts) s', Done (Completed tt))).
Proof.
  intros Hbot Hin Hfree. eexists. split_and!.
  - unfold in_flight, guarded. cbn. rewrite Hbot, opt_eqb_refl. cbn.
    rewrite merged_not_comment, merged_not_approved, merged_not_updated, str_eqb_refl.
    cbn. unfold processing_has. rewrite bool_decide_eq_true_2 by done. cbn.
    unfold timers_has. rewrite bool_decide_eq_false_2; cycle 1.
    { cbn in Hfree. rewrite Hfree. by intros [? ?]. }
    cbn. reflexivity.
  - intros warn s'. reflexivity.
  - intros e s'. by rewrite <- released_idemp.
Qed.

(** The approval branch, resumed with the bot's own message. *)
Lemma advance_in_flight_approved (s : Store) (channel ts user : jstring)
    (m : Message) (rest : list Message) :
  msg_bot_id m = myBotId s →
  ∃ K,
    advance (in_flight (reaction_on channel ts REACTIONS_APPROVED user) channel ts
               (Fulfilled (Some (m :: rest)))) s
    = (s, Pending (ChatPostMessage channel (Some ts)
                     (approval_for (getAuthorIdFromText (or_else (msg_text m) [])))) K)
    ∧ (∀ r s', advance (K r) s' = (released (key_of channel ts) s', Done (Completed tt))).
Proof.
  intros Hbot. eexists. split.
  - unfold in_flight, guarded. cbn. rewrite Hbot, opt_eqb_refl. cbn. reflexivity.
  - intros [v|e] s'; [done|]. by rewrite <- released_idemp.
Qed.

(** The comment branch, resumed with a message of the bot that names no
    author. *)
Lemma advance_in_flight_comment_other (s : Store) (channel ts user : jstring)
    (m : Message) (rest : list Message) :
  msg_bot_id m = myBotId s →
  getAuthorIdFromText (or_else (msg_text m) []) = None →
  ∃ K,
    advance (in_flight (reaction_on channel ts REACTIONS_COMMENT user) channel ts
               (Fulfilled (Some (m :: rest)))) s
    = (s, Pending (ChatPostMessage channel (Some ts) MESSAGES_COMMENT_OTHER) K)
    ∧ (∀ r s', advance (K r) s' = (released (key_of channel ts) s', Done (Completed tt))).
Proof.
  intros Hbot Hnone. eexists. split.
  - unfold in_flight, guarded. cbn. rewrite Hbot, opt_eqb_refl. cbn.
    rewrite Hnone. cbn. reflexivity.
  - intros [v|e] s'; [done|]. by rewrite <- released_idemp.
Qed.


(** A reaction that is mapped to no action, on the bot's own message. *)
Lemma advance_in_flight_unmapped (s : Store) (channel ts reaction user : jstring)
    (m : Message) (rest : list Message) :
  unmapped reaction →
  advance (in_flight (reaction_on channel ts reaction user) channel ts
             (Fulfilled (Some (m :: rest)))) s
  = (released (key_of channel ts) s, Done (Completed tt)).
Proof.
  intros (Hc & Ha & Hu & Hm). unfold in_flight, guarded. cbn.
  destruct (opt_eqb (msg_bot_id m) (myBotId s)); cbn; [|done].
  rewrite !str_eqb_ne by done. reflexivity.
Qed.


End DeliveryFacts.

(* ================================================================== *)
(** ** Further properties: the slash command and the start-up *)
(* ================================================================== *)

Module CommandFacts.

Lemma count_message_step (n : Counts) (msg : Message) :
  counted (count_message n msg)
  ≤ counted n + (if truthy (msg_bot_id msg) then 1 else 0).
Proof.
  unfold count_message, counted.
  destruct (truthy (msg_bot_id msg)); cbn [andb]; [|lia].
  destruct (truthy (msg_text msg) && _); [|lia].
  repeat (destruct (includes _ _); [cbn; lia|]). lia.
Qed.

Lemma count_messages_bound (msgs : list Message) :
  ∀ n, counted (foldl count_message n msgs)
       ≤ counted n + length (filter (λ m, truthy (msg_bot_id m) = true) msgs).
Proof.
  induction msgs as [|m msgs IH]; intros n; cbn [foldl].
  - cbn. lia.
  - pose proof (count_message_step n m) as Hstep. specialize (IH (count_message n m)).
    destruct (truthy (msg_bot_id m)) eqn:Hbot.
    + rewrite filter_cons_True by done. cbn [length]. lia.
    + rewrite filter_cons_False by (by rewrite Hbot). lia.
Qed.

Lemma truthy_toLowerCase (l : jstring) :
  truthy (Some (toLowerCase l)) = truthy (Some l).
Proof. by destruct l. Qed.

End CommandFacts.

(* ================================================================== *)
(** ** Further theorems *)
(* ================================================================== *)

Module PatternTheorems.
Import TextFacts PatternFacts.

Local Open Scope N_scope.

(** Whatever the text, an author id returned by the parse is not empty and
    is made of Basic Latin letters and digits; lower-case letters can occur,
    the pattern being case-insensitive. *)
Theorem getAuthorIdFromText_alnum (text id : jstring) :
  getAuthorIdFromText text = Some id →
  id ≠ [] ∧ Forall (λ c, is_alnum c = true) id.
Proof.
  intros H. split.
  - apply getAuthorIdFromText_truthy in H. by destruct id.
  - apply (re_search_capture_units _ author_regex text); [|exact H].
    intros a c Ha. apply group_of_author_regex in Ha as ->.
    by rewrite upper_alnum_ci.
Qed.

Lemma getAuthorIdFromText_alnum_witness :
  getAuthorIdFromText (js "Author: <@U1>") = Some U1
  ∧ Forall (λ c, is_alnum c = true) U1.
Proof.
  assert (H : getAuthorIdFromText (js "Author: <@U1>") = Some U1)
    by (vm_compute; reflexivity).
  split; [exact H|]. exact (proj2 (getAuthorIdFromText_alnum _ _ H)).
Defined.

(** The parse of the announcement that [/pr] posts returns the author, for
    every author id made of Basic Latin letters and digits and every
    complexity text, provided the author pattern does not match inside the
    link, which precedes the author line. *)
Theorem announcement_names_its_author (prUrl id complexity : jstring) :
  id ≠ [] →
  Forall (λ c, is_alnum c = true) id →
  getAuthorIdFromText prUrl = None →
  getAuthorIdFromText (announcement prUrl id complexity) = Some id.
Proof.
  intros Hne Hid Hurl. unfold getAuthorIdFromText, re_search, announcement in *.
  cbn [ignoreCase] in *.
  destruct author_regex_head as [re Hre].
  rewrite Hre, re_search_skip by (apply not_capital_a; vm_compute; reflexivity).
  assert (js "|Link to PR on GitHub>" = 124 :: tail (js "|Link to PR on GitHub>")) as ->
    by (vm_compute; reflexivity).
  rewrite <- app_comm_cons, <- Hre.
  rewrite re_search_nodes_cut; [|reflexivity|exact Hurl].
  rewrite app_comm_cons, Hre.
  rewrite re_search_skip by (apply not_capital_a; vm_compute; reflexivity).
  rewrite re_search_skip by (apply not_capital_a; vm_compute; reflexivity).
  rewrite <- Hre. apply re_search_here.
  by apply author_line_matches.
Qed.

Lemma announcement_names_its_author_witness :
  getAuthorIdFromText (js "https://github.com/x/y/pull/1") = None
  ∧ getAuthorIdFromText (announcement (js "https://github.com/x/y/pull/1") U1 (js ":ez:"))
    = Some U1.
Proof.
  assert (H : getAuthorIdFromText (js "https://github.com/x/y/pull/1") = None)
    by (vm_compute; reflexivity).
  split; [exact H|].
  apply announcement_names_its_author; [discriminate|by repeat constructor|exact H].
Defined.

(** In the earlier variant the author line precedes the link: the parse of
    the announcement returns the author whatever the link and the
    complexity text are. *)
Theorem earlier_announcement_names_its_author (prUrl id complexity : jstring) :
  id ≠ [] →
  Forall (λ c, is_alnum c = true) id →
  getAuthorIdFromText (Earlier.announcement prUrl id complexity) = Some id.
Proof.
  intros Hne Hid. unfold getAuthorIdFromText, re_search, Earlier.announcement.
  cbn [ignoreCase].
  assert (js "We have a new PR!"
          = js "We h" ++ 97 :: js "ve " ++ 97 :: js " new PR!") as ->
    by (vm_compute; reflexivity).
  rewrite <- !app_assoc.
  change (nodes author_regex) with (One (Chr 65) :: tail (nodes author_regex)).
  rewrite re_search_skip by (apply not_capital_a; vm_compute; reflexivity).
  rewrite <- app_comm_cons, re_search_next by (vm_compute; reflexivity).
  rewrite <- !app_assoc.
  rewrite re_search_skip by (apply not_capital_a; vm_compute; reflexivity).
  rewrite <- app_comm_cons, re_search_next by (vm_compute; reflexivity).
  rewrite re_search_skip by (apply not_capital_a; vm_compute; reflexivity).
  rewrite re_search_skip by (apply not_capital_a; vm_compute; reflexivity).
  rewrite re_search_skip by (apply not_capital_a; vm_compute; reflexivity).
  apply re_search_here. by apply author_line_matches.
Qed.

Lemma earlier_announcement_names_its_author_witness :
  getAuthorIdFromText
    (Earlier.announcement (js "Author: <@EVIL>") U1 (js "large")) = Some U1.
Proof.
  apply earlier_announcement_names_its_author; [discriminate|by repeat constructor].
Defined.

(** The reviewer pattern, which the update branch runs on the replies of a
    thread, recovers the reviewer from the comment notification: for every
    reviewer id made of upper-case letters and digits and every author id
    without a space. *)
Theorem comment_notification_names_reviewer (author reviewer : jstring) :
  Forall (λ c, c ≠ 32) author →
  reviewer ≠ [] →
  Forall (λ c, is_upper_alnum c = true) reviewer →
  re_search reviewerRegex (MESSAGES_COMMENT_OWN author reviewer) = Some reviewer.
Proof.
  intros Hauthor Hne Hid. unfold re_search, MESSAGES_COMMENT_OWN.
  cbn [ignoreCase].
  assert (js ">, a comment or two was left on your PR by <@"
          = 62 :: js ", a comment or two was " ++ js "left on your PR by <@") as ->
    by (vm_compute; reflexivity).
  assert (js ">." = [62; 46]) as -> by (vm_compute; reflexivity).
  rewrite <- ?app_comm_cons, <- ?app_assoc.
  assert (Hskip : ∀ p s,
             forallb (λ c, negb (c =? 108)) p = true →
             re_search_nodes false (nodes reviewerRegex) (p ++ s)
             = re_search_nodes false (nodes reviewerRegex) s).
  { intros p s Hp.
    change (nodes reviewerRegex) with (One (Chr 108) :: tail (nodes reviewerRegex)).
    apply re_search_skip, Forall_forall. intros c Hc.
    rewrite forallb_forall in Hp. apply negb_true_iff, Hp. by apply list_elem_of_In. }
  rewrite Hskip by (vm_compute; reflexivity).
  assert (Hblock : re_search_nodes false (nodes reviewerRegex)
                     (author ++ 62 :: js ", a comment or two was "
                        ++ js "left on your PR by <@" ++ reviewer ++ [62; 46])
                   = re_search_nodes false (nodes reviewerRegex)
                       (62 :: js ", a comment or two was "
                          ++ js "left on your PR by <@" ++ reviewer ++ [62; 46])).
  { change (nodes reviewerRegex)
      with (word ((108 :: [101; 102; 116]) ++ [32])
              ++ tail (tail (tail (tail (tail (nodes reviewerRegex)))))).
    apply re_search_word_blocked.
    - eapply Forall_impl; [exact Hauthor|]. intros c Hc.
      cbn. by apply N.eqb_neq.
    - by repeat constructor. }
  rewrite Hblock.
  rewrite app_comm_cons, Hskip by (vm_compute; reflexivity).
  apply re_search_here. by apply comment_line_matches.
Qed.

Lemma comment_notification_names_reviewer_witness :
  re_search reviewerRegex (MESSAGES_COMMENT_OWN U1 U2) = Some U2.
Proof.
  apply comment_notification_names_reviewer;
    [by repeat constructor|discriminate|by repeat constructor].
Defined.

(** No piece of [text.split(/\s+/)] contains white space. *)
Theorem split_ws_pieces (s : jstring) : Forall no_space (split_ws s).
Proof. apply split_ws_from_pieces. by unfold no_space. Qed.

(** A word alone splits into itself, and two words separated by a run of
    white space split into the two words: the link and the complexity label
    of [/pr <url> <complexity>]. *)
Theorem split_ws_two_words (a ws b : jstring) (c : N) :
  no_space a → is_space c = true → Forall (λ c, is_space c = true) ws → no_space b →
  split_ws a = [a] ∧ split_ws (a ++ c :: ws ++ b) = [a; b].
Proof.
  intros Ha Hc Hws Hb. split.
  - by apply (split_ws_from_word a []).
  - by apply (split_ws_from_two a ws b c []).
Qed.

Lemma split_ws_two_words_witness :
  split_ws (js "url" ++ 32 :: [9] ++ js "ez") = [js "url"; js "ez"].
Proof.
  apply (split_ws_two_words (js "url") [9] (js "ez") 32);
    [by repeat constructor|reflexivity|by repeat constructor|by repeat constructor].
Defined.

End PatternTheorems.

Module CleanupTheorems.
Import AsyncFacts CompositionFacts CleanupFacts.

(** The deferred deletion when the [merged] reaction is still present, the
    recorded identity being left alone by the other handlers.  The task
    queries the reactions and the replies, deletes the replies that carry
    the recorded identity, in order and skipping the parent, going on when a
    delete fails;
    then it deletes the parent, and after that the warning, if its
    timestamp was recorded and only if the delete of the parent succeeded.
    A failed fetch of the replies deletes no reply and stops nothing.
    The replies deleted are those that pass the test of the code, a
    [bot_id] or a [user] equal to the recorded identity; when no identity
    is recorded, these are the replies that lack one of the two fields,
    those of people among them. *)
Theorem delayed_deletion_cleans_thread (cl : Closure) (env : nat → Env) (s : Store)
    (info : option (option (list Reaction))) :
  identity_stable env →
  answer (env 0) (ReactionsGet (cl_channel cl) (cl_ts cl)) = Fulfilled info →
  still_has_merged info = true →
  let own := filter (λ m, own_reply (myBotId s) (cl_ts cl) m = true)
               (replies_of (answer (env 1)
                  (ConversationsReplies (cl_channel cl) (cl_ts cl) 100))) in
  let anchor := ChatDelete (cl_channel cl) (Some (cl_ts cl)) in
  let r := run (delayed_deletion cl) env 0 s in
  outcome r = Completed tt
  ∧ calls r = [ReactionsGet (cl_channel cl) (cl_ts cl);
               ConversationsReplies (cl_channel cl) (cl_ts cl) 100]
              ++ map (delete_of (cl_channel cl)) own
              ++ anchor
                 :: (if fulfilled (answer (env (2 + length own)) anchor)
                        && truthy (cl_warn_ts cl)
                     then [ChatDelete (cl_channel cl) (cl_warn_ts cl)] else []).
Proof.
  intros Hid Hinfo Hmerged own anchor r. subst r.
  rewrite (delayed_deletion_query cl env s info Hinfo Hmerged).
  set (s2 := interfere (env 1) (interfere (env 0) s)).
  assert (Hs2 : myBotId s2 = myBotId s) by (subst s2; by rewrite !Hid).
  cbn [awaited outcome calls app].
  destruct (answer (env 1) (ConversationsReplies (cl_channel cl) (cl_ts cl) 100))
    as [replies|e] eqn:Hreplies.
  - cbn [of_settled mbind Async_bind bind replies_of] in *.
    rewrite (run_focus (cleanup_frame cl) (cleanup_frame_hom cl)).
    destruct (for_of_delete_reply (cl_channel cl) (cl_ts cl) env (default [] replies)
                Hid 2 s2) as (Ho & Hc & Hw & Hb).
    rewrite Hs2 in Hc. fold own in Hc.
    rewrite Ho, Hc. cbn [stub seq_run outcome calls]. rewrite length_map.
    destruct (run_delete_anchor cl env (2 + length own)
                (final (run (for_of (default [] replies)
                          (delete_reply (cl_channel cl) (cl_ts cl))) env 2 s2)))
      as (Ho' & Hc').
    split; [exact Ho'|]. do 2 f_equal. apply (f_equal2 app); [exact Hc|exact Hc'].
  - cbn [of_settled mbind Async_bind bind replies_of] in *.
    subst own. cbn [filter list_filter map length app].
    destruct (run_delete_anchor cl env 2 s2) as (Ho' & Hc').
    split; [exact Ho'|]. do 2 f_equal. exact Hc'.
Qed.

Lemma delayed_deletion_cleans_thread_witness :
  identity_stable (alone (λ _, in_thread))
  ∧ still_has_merged (Some (Some [{| reaction_name := Some REACTIONS_MERGED |}])) = true
  ∧ outcome (run (delayed_deletion armed) (alone (λ _, in_thread)) 0 pending_store)
    = Completed tt.
Proof.
  assert (Hid : identity_stable (alone (λ _, in_thread))) by (intros n s; reflexivity).
  split; [exact Hid|]. split; [reflexivity|].
  exact (proj1 (delayed_deletion_cleans_thread armed (alone (λ _, in_thread))
                  pending_store _ Hid eq_refl eq_refl)).
Defined.

(** When the query of the reactions fails the deferred deletion deletes
    nothing: the query is its only call, and it completes. *)
Theorem delayed_deletion_query_failure (cl : Closure) (env : nat → Env) (s : Store)
    (e : Error) :
  answer (env 0) (ReactionsGet (cl_channel cl) (cl_ts cl)) = Rejected e →
  let r := run (delayed_deletion cl) env 0 s in
  calls r = [ReactionsGet (cl_channel cl) (cl_ts cl)] ∧ outcome r = Completed tt.
Proof.
  intros Hinfo r. subst r. unfold delayed_deletion. cbn. rewrite Hinfo. by cbn.
Qed.

Lemma delayed_deletion_query_failure_witness :
  answer (alone (λ _, slack_down) 0) (ReactionsGet (cl_channel armed) (cl_ts armed))
  = Rejected (SlackError "service_unavailable")
  ∧ calls (run (delayed_deletion armed) (alone (λ _, slack_down)) 0 pending_store)
    = [ReactionsGet (cl_channel armed) (cl_ts armed)].
Proof.
  split; [reflexivity|].
  exact (proj1 (delayed_deletion_query_failure armed (alone (λ _, slack_down))
                  pending_store _ eq_refl)).
Defined.

End CleanupTheorems.

Module FootprintTheorems.
Import AsyncFacts LoopFacts CompositionFacts CleanupFacts FootprintFacts.

(** Whatever Slack answers and whatever happens in between, the deferred
    deletion writes to the module state exactly once: it removes the entry
    of its key from the deletion timers.  The in-flight guard, the armed
    timers and the identity are not written. *)
Theorem delayed_deletion_single_write (cl : Closure) (env : nat → Env) (n : nat) (s : Store) :
  ∃ s', writes (run (delayed_deletion cl) env n s)
        = [(s', with_deletionTimers (λ m, delete (cl_key cl) m) s')].
Proof.
  unfold delayed_deletion.
  lazymatch goal with
  | |- context [run (function_body (try_finally (try_catch ?p _) _))] =>
      apply (deletion_frame_writes cl env p)
  end.
  intros s0. cbn [mbind Async_bind].
  apply writes_only_bind; [by intros [v|e] s'|]. intros info s1.
  apply writes_only_bind.
  { apply writes_only_when. apply writes_only_bind; [|done].
    apply writes_only_try_catch; [|done].
    apply writes_only_when. by intros [v|e] s'. }
  intros [] s2. apply writes_only_bind.
  { apply writes_only_try_catch; [|done].
    apply writes_only_bind; [by intros [v|e] s'|]. intros replies s3.
    apply writes_only_for_of. intros m s4. apply delete_reply_quiet. }
  intros [] s3. apply writes_only_bind; [by intros [v|e] s'|]. intros [] s4.
  apply writes_only_when. by intros [v|e] s'.
Qed.

(** The deferred deletion never posts: each of its calls is the reactions
    query or the reply fetch of its own message, or a delete in its own
    channel. *)
Theorem delayed_deletion_only_cleans (cl : Closure) (env : nat → Env) (n : nat) (s : Store) :
  Forall (cleans cl) (calls (run (delayed_deletion cl) env n s)).
Proof.
  apply calls_only_run. unfold delayed_deletion. cbn [mbind Async_bind].
  apply calls_only_function_body, calls_only_try_finally; [|done].
  apply calls_only_try_catch; [|done].
  apply calls_only_bind; [apply calls_only_await; by left|]. intros info.
  apply calls_only_bind.
  { apply calls_only_when, calls_only_bind; [|done].
    apply calls_only_try_catch; [|done].
    apply calls_only_when, calls_only_await. right; right. by eexists. }
  intros []. apply calls_only_bind.
  { apply calls_only_try_catch; [|done].
    apply calls_only_bind; [apply calls_only_await; right; by left|]. intros replies.
    apply calls_only_for_of. intros m. unfold delete_reply.
    destruct (opt_eqb _ _); [done|]. intros s0. apply calls_only_when.
    apply calls_only_try_catch; [|done]. apply calls_only_await.
    right; right. by eexists. }
  intros []. apply calls_only_bind.
  { apply calls_only_await. right; right. by eexists. }
  intros []. apply calls_only_when, calls_only_try_catch; [|done].
  apply calls_only_await. right; right. by eexists.
Qed.

(** A [reaction_removed] event on a message issues at most one call, a
    delete in the channel of the message, and none of its writes registers
    anything: the guard, the deletion timers and the armed timers can only
    lose members, and the identity stays. *)
Theorem reaction_removed_footprint
    (event : ReactionEvent) (channel ts : jstring) (env : nat → Env) (n : nat) (s : Store) :
  ev_item event = ItemMessage channel ts →
  let r := run (reaction_removed event) env n s in
  length (calls r) ≤ 1
  ∧ Forall (deletes_in channel) (calls r)
  ∧ Forall (λ w, shrinks w.1 w.2) (writes r).
Proof.
  intros Hitem r. subst r.
  assert (Hshape : ∀ s0, issues_at_most any_call 1 (reaction_removed event)
                         ∧ calls_only (deletes_in channel) (reaction_removed event)
                         ∧ writes_only shrinks (reaction_removed event) s0).
  { intros s0. unfold reaction_removed. rewrite Hitem.
    destruct (str_eqb (ev_reaction event) REACTIONS_MERGED); cbn; [|done].
    split_and!.
    - intros s1. destruct (processing_has _ s1); cbn; [done|].
      intros s2. destruct (deletionTimers s2 !! _) as [t|]; cbn; [|done].
      intros s3 s4. destruct (truthy (warnTs t)); cbn; [|done]. by intros [v|e].
    - intros s1. destruct (processing_has _ s1); cbn; [done|].
      intros s2. destruct (deletionTimers s2 !! _) as [t|]; cbn; [|done].
      intros s3 s4. destruct (truthy (warnTs t)); cbn; [|done].
      split; [by eexists|]. by intros [v|e].
    - destruct (processing_has _ s0); cbn.
      + split; [|done]. split_and!; cbn; [set_solver|done..].
      + destruct (deletionTimers s0 !! _) as [t|]; cbn; [|done].
        split; [split_and!; cbn; [done|done|apply delete_subseteq|done]|].
        split; [split_and!; cbn; [done|apply delete_subseteq|done|done]|].
        destruct (truthy (warnTs t)); cbn; [|done]. by intros [v|e] s'. }
  destruct (Hshape s) as (Hmost & Honly & Hwrites). split_and!.
  - rewrite <- (filter_any_call (calls _)). by apply issues_at_most_run.
  - by apply calls_only_run.
  - by apply writes_only_run.
Qed.

Lemma reaction_removed_footprint_witness :
  ev_item (reaction_on C0 T0 REACTIONS_MERGED U2) = ItemMessage C0 T0
  ∧ (length (calls (run (reaction_removed (reaction_on C0 T0 REACTIONS_MERGED U2))
                     (alone (λ _, in_thread)) 0 pending_store)) ≤ 1)%nat.
Proof.
  split; [reflexivity|].
  exact (proj1 (reaction_removed_footprint (reaction_on C0 T0 REACTIONS_MERGED U2)
                  C0 T0 (alone (λ _, in_thread)) 0 pending_store eq_refl)).
Defined.

(** The removal of a reaction other than [merged] does nothing; and an event
    on an item that is not a message (a file, a file comment) is passed over
    by both handlers: no call, no write. *)
Theorem handlers_ignore_other_events (event : ReactionEvent) (env : nat → Env)
    (n : nat) (s : Store) :
  (ev_reaction event ≠ REACTIONS_MERGED →
   run (reaction_removed event) env n s = finished s (Completed tt))
  ∧ ((∀ channel ts, ev_item event ≠ ItemMessage channel ts) →
     run (reaction_removed event) env n s = finished s (Completed tt)
     ∧ run (reaction_added event) env n s = finished s (Completed tt)).
Proof.
  split.
  - intros Hr. unfold reaction_removed, str_eqb.
    rewrite bool_decide_eq_false_2 by done. reflexivity.
  - intros Hitem. unfold reaction_removed, reaction_added.
    destruct (ev_item event) as [channel ts| |]; [by destruct (Hitem channel ts)|..];
      by destruct (str_eqb _ _).
Qed.

Lemma handlers_ignore_other_events_witness :
  REACTIONS_COMMENT ≠ REACTIONS_MERGED
  ∧ run (reaction_removed (reaction_on C0 T0 REACTIONS_COMMENT U2))
      (alone (λ _, in_thread)) 0 pending_store
    = finished pending_store (Completed tt).
Proof.
  assert (H : REACTIONS_COMMENT ≠ REACTIONS_MERGED) by discriminate.
  split; [exact H|].
  exact (proj1 (handlers_ignore_other_events (reaction_on C0 T0 REACTIONS_COMMENT U2)
                  (alone (λ _, in_thread)) 0 pending_store) H).
Defined.

(** Every call of [reaction_added] concerns the message reacted to: the
    fetch of the message, the fetch of its replies, or a post in its thread.
    It never deletes, and it posts at most one message per event. *)
Theorem reaction_added_footprint
    (event : ReactionEvent) (channel ts : jstring) (env : nat → Env) (n : nat) (s : Store) :
  ev_item event = ItemMessage channel ts →
  let r := run (reaction_added event) env n s in
  Forall (concerns_thread channel ts) (calls r)
  ∧ length (filter (λ c, is_post c = true) (calls r)) ≤ 1.
Proof.
  intros Hitem r. subst r.
  assert (Hpost : ∀ text, concerns_thread channel ts (ChatPostMessage channel (Some ts) text)).
  { intros text. right; right. by eexists. }
  split.
  - apply calls_only_run. unfold reaction_added. rewrite Hitem.
    cbn [mbind Async_bind].
    apply calls_only_function_body, calls_only_try_catch; [|done].
    apply calls_only_bind; [done|]. intros [].
    apply calls_only_try_finally; [|done].
    apply calls_only_bind; [apply calls_only_await; by left|]. intros history.
    unfold dispatch. cbn [mbind Async_bind get bind calls_only]. intros s0.
    destruct (first_message history) as [m|]; [|done].
    apply calls_only_bind; [by apply calls_only_when|]. intros [].
    apply calls_only_bind.
    { apply calls_only_when. unfold on_comment. cbn [mbind Async_bind].
      apply calls_only_bind; [by apply calls_only_await|done]. }
    intros []. apply calls_only_bind.
    { apply calls_only_when. unfold on_approved. cbn [mbind Async_bind].
      apply calls_only_bind; [by apply calls_only_await|done]. }
    intros []. apply calls_only_bind.
    { apply calls_only_when. unfold on_updated. cbn [mbind Async_bind].
      apply calls_only_bind; [apply calls_only_await; right; by left|]. intros replies.
      apply calls_only_bind.
      - apply calls_only_when. apply calls_only_bind; [by apply calls_only_await|done].
      - intros []. apply calls_only_bind; [by apply calls_only_await|done]. }
    intros []. apply calls_only_when. unfold on_merged.
    cbn [mbind Async_bind get bind calls_only]. intros s1.
    apply calls_only_bind; [by apply calls_only_when|]. intros [].
    cbn [bind calls_only]. intros s2.
    apply calls_only_bind; [by apply calls_only_when|]. intros [].
    apply calls_only_bind; [by apply calls_only_await|]. intros warn.
    apply calls_only_bind; [done|]. intros id. done.
  - apply issues_at_most_run. unfold reaction_added. rewrite Hitem. enter.
    intros [history|e]; enter; [|done].
    unfold dispatch. destruct (first_message history) as [m|]; enter; [|done].
    destruct (negb _); enter; [done|].
    destruct (str_eqb (ev_reaction event) REACTIONS_COMMENT); enter.
    { by intros [v|e]. }
    destruct (str_eqb (ev_reaction event) REACTIONS_APPROVED); enter.
    { by intros [v|e]. }
    destruct (str_eqb (ev_reaction event) REACTIONS_UPDATED); enter.
    { intros [replies|e]; enter; [|done].
      destruct (bool_decide _); enter; by intros [v|e]. }
    destruct (str_eqb (ev_reaction event) REACTIONS_MERGED); enter; [|done].
    destruct (processing_has _ _); enter; [|done].
    destruct (timers_has _ _); enter; [done|]. by intros [v|e].
Qed.

Lemma reaction_added_footprint_witness :
  ev_item (reaction_on C0 T0 REACTIONS_UPDATED U2) = ItemMessage C0 T0
  ∧ Forall (concerns_thread C0 T0)
      (calls (run (reaction_added (reaction_on C0 T0 REACTIONS_UPDATED U2))
                (alone (λ _, in_thread)) 0 bot_store)).
Proof.
  split; [reflexivity|].
  exact (proj1 (reaction_added_footprint (reaction_on C0 T0 REACTIONS_UPDATED U2)
                  C0 T0 (alone (λ _, in_thread)) 0 bot_store eq_refl)).
Defined.

End FootprintTheorems.

Module DeliveryTheorems.
Import TextFacts AsyncFacts LoopFacts PatternFacts DeliveryFacts.



(** When the post of the warning is rejected, no timer is armed and no
    entry recorded; the handler completes and the key leaves the guard. *)
Theorem merge_warning_failure_arms_nothing
    (w : World) (channel ts user : jstring) (a a' : Answer)
    (m : Message) (rest : list Message) (e : Error) :
  let key := key_of channel ts in
  let i := length (tasks w) in
  let warning := ChatPostMessage channel (Some ts)
                   (warning_for (getAuthorIdFromText (or_else (msg_text m) []))) in
  a (fetch channel ts) = Fulfilled (Some (m :: rest)) →
  msg_bot_id m = myBotId (store w) →
  deletionTimers (store w) !! key = None →
  a' warning = Rejected e →
  let w3 := play [ReactionAdded (reaction_on channel ts REACTIONS_MERGED user);
                  Settle i a; Settle i a'] w in
  wire w3 = wire w ++ [fetch channel ts; warning]
  ∧ tasks w3 !! i = Some (Done (Completed tt))
  ∧ settled_quietly (store w) (store w3)
  ∧ (key ∉ processingReactions (store w3)).
Proof.
  intros key i warning Ha Hbot Hfree Hwarn w3.
  subst w3 i. cbn [play foldl tick].
  destruct (advance_in_flight_merged
              (with_processingReactions (λ g : gset jstring, {[key]} ∪ g) (store w))
              channel ts user m rest) as (K & Hadv & _ & Hfail);
    [exact Hbot | cbn; set_solver | exact Hfree |].
  rewrite (settle_fetch w channel ts REACTIONS_MERGED user a _ _
             ltac:(rewrite Ha; exact Hadv)).
  cbn [pending_call].
  rewrite (settle_last (tasks w) _ _ a' _ K _ _
             ltac:(fold warning; rewrite Hwarn; apply Hfail)).
  cbn [wire tasks store pending_call].
  split_and!.
  - by rewrite app_nil_r, <- app_assoc.
  - by apply list_lookup_middle.
  - done.
  - cbn. set_solver.
Qed.

Lemma merge_warning_failure_arms_nothing_witness :
  found_anchor (fetch C0 T0) = Fulfilled (Some [anchor])
  ∧ settled_quietly (store (boot bot_store))
      (store (play [ReactionAdded (reaction_on C0 T0 REACTIONS_MERGED U2);
                    Settle 0 found_anchor; Settle 0 slack_down] (boot bot_store))).
Proof.
  split; [reflexivity|].
  exact (proj1 (proj2 (proj2
    (merge_warning_failure_arms_nothing (boot bot_store) C0 T0 U2 found_anchor slack_down
       anchor [] (SlackError "service_unavailable") eq_refl eq_refl eq_refl eq_refl)))).
Defined.

(** A [white_check_mark] reaction on an announcement of the bot is answered
    by one post in the thread, addressed to the author when the
    announcement names one; the handler completes whether the post succeeds
    or not, and arms nothing. *)
Theorem approval_is_announced_in_thread
    (w : World) (channel ts user : jstring) (a a' : Answer)
    (m : Message) (rest : list Message) :
  let key := key_of channel ts in
  let i := length (tasks w) in
  let reply := ChatPostMessage channel (Some ts)
                 (approval_for (getAuthorIdFromText (or_else (msg_text m) []))) in
  a (fetch channel ts) = Fulfilled (Some (m :: rest)) →
  msg_bot_id m = myBotId (store w) →
  let w3 := play [ReactionAdded (reaction_on channel ts REACTIONS_APPROVED user);
                  Settle i a; Settle i a'] w in
  wire w3 = wire w ++ [fetch channel ts; reply]
  ∧ tasks w3 !! i = Some (Done (Completed tt))
  ∧ settled_quietly (store w) (store w3)
  ∧ (key ∉ processingReactions (store w3)).
Proof.
  intros key i reply Ha Hbot w3.
  subst w3 i. cbn [play foldl tick].
  destruct (advance_in_flight_approved
              (with_processingReactions (λ g : gset jstring, {[key]} ∪ g) (store w))
              channel ts user m rest Hbot) as (K & Hadv & Hend).
  rewrite (settle_fetch w channel ts REACTIONS_APPROVED user a _ _
             ltac:(rewrite Ha; exact Hadv)).
  cbn [pending_call].
  rewrite (settle_last (tasks w) _ _ a' _ K _ _ (Hend _ _)).
  cbn [wire tasks store pending_call].
  split_and!.
  - by rewrite app_nil_r, <- app_assoc.
  - by apply list_lookup_middle.
  - done.
  - cbn. set_solver.
Qed.

Lemma approval_is_announced_in_thread_witness :
  found_anchor (fetch C0 T0) = Fulfilled (Some [anchor])
  ∧ msg_bot_id anchor = myBotId (store (boot bot_store))
  ∧ tasks (play [ReactionAdded (reaction_on C0 T0 REACTIONS_APPROVED U2);
                 Settle 0 found_anchor; Settle 0 slack_down] (boot bot_store)) !! 0%nat
    = Some (Done (Completed tt)).
Proof.
  split; [reflexivity|]. split; [reflexivity|].
  exact (proj1 (proj2
    (approval_is_announced_in_thread (boot bot_store) C0 T0 U2 found_anchor slack_down
       anchor [] eq_refl eq_refl))).
Defined.

(** A [speech_balloon] reaction on a message of the bot in which the author
    pattern finds nothing is answered with the generic notification, which
    mentions nobody. *)
Theorem comment_without_author_is_generic
    (w : World) (channel ts user : jstring) (a a' : Answer)
    (m : Message) (rest : list Message) :
  let i := length (tasks w) in
  a (fetch channel ts) = Fulfilled (Some (m :: rest)) →
  msg_bot_id m = myBotId (store w) →
  getAuthorIdFromText (or_else (msg_text m) []) = None →
  let w3 := play [ReactionAdded (reaction_on channel ts REACTIONS_COMMENT user);
                  Settle i a; Settle i a'] w in
  wire w3 = wire w ++ [fetch channel ts;
                       ChatPostMessage channel (Some ts) MESSAGES_COMMENT_OTHER]
  ∧ tasks w3 !! i = Some (Done (Completed tt))
  ∧ settled_quietly (store w) (store w3).
Proof.
  intros i Ha Hbot Hnone w3.
  subst w3 i. cbn [play foldl tick].
  destruct (advance_in_flight_comment_other
              (with_processingReactions (λ g : gset jstring, {[key_of channel ts]} ∪ g)
                 (store w))
              channel ts user m rest Hbot Hnone) as (K & Hadv & Hend).
  rewrite (settle_fetch w channel ts REACTIONS_COMMENT user a _ _
             ltac:(rewrite Ha; exact Hadv)).
  cbn [pending_call].
  rewrite (settle_last (tasks w) _ _ a' _ K _ _ (Hend _ _)).
  cbn [wire tasks store pending_call].
  split_and!.
  - by rewrite app_nil_r, <- app_assoc.
  - by apply list_lookup_middle.
  - done.
Qed.

Lemma comment_without_author_is_generic_witness :
  getAuthorIdFromText (or_else (msg_text bot_note) []) = None
  ∧ wire (play [ReactionAdded (reaction_on C0 T0 REACTIONS_COMMENT U2);
                Settle 0 (slack (Some [bot_note]) None None None);
                Settle 0 slack_down] (boot bot_store))
    = [fetch C0 T0; ChatPostMessage C0 (Some T0) MESSAGES_COMMENT_OTHER].
Proof.
  assert (H : getAuthorIdFromText (or_else (msg_text bot_note) []) = None)
    by (vm_compute; reflexivity).
  split; [exact H|].
  exact (proj1
    (comment_without_author_is_generic (boot bot_store) C0 T0 U2
       (slack (Some [bot_note]) None None None) slack_down bot_note []
       eq_refl eq_refl H)).
Defined.



(** A reaction that is none of the four mapped ones, on any message: the
    handler fetches the message and ends without a further call; nothing is
    armed or recorded. *)
Theorem unmapped_reaction_only_fetches
    (w : World) (channel ts reaction user : jstring) (a : Answer)
    (m : Message) (rest : list Message) :
  let i := length (tasks w) in
  unmapped reaction →
  a (fetch channel ts) = Fulfilled (Some (m :: rest)) →
  let w2 := play [ReactionAdded (reaction_on channel ts reaction user); Settle i a] w in
  wire w2 = wire w ++ [fetch channel ts]
  ∧ tasks w2 !! i = Some (Done (Completed tt))
  ∧ settled_quietly (store w) (store w2).
Proof.
  intros i Hun Ha w2. subst w2 i. cbn [play foldl tick].
  rewrite (settle_fetch w channel ts reaction user a _ _
             ltac:(rewrite Ha; by apply advance_in_flight_unmapped)).
  cbn [wire tasks store pending_call].
  split_and!; [by rewrite app_nil_r|by apply list_lookup_middle|done].
Qed.

Lemma unmapped_reaction_only_fetches_witness :
  unmapped EYES
  ∧ wire (play [ReactionAdded (reaction_on C0 T0 EYES U2); Settle 0 found_anchor]
            (boot bot_store))
    = [fetch C0 T0].
Proof.
  assert (H : unmapped EYES) by (repeat split; discriminate).
  split; [exact H|].
  exact (proj1 (unmapped_reaction_only_fetches (boot bot_store) C0 T0 EYES U2
                  found_anchor anchor [] H eq_refl)).
Defined.



Lemma reaction_added_ignores_other_messages_witness :
  slack (Some [note]) None None None (fetch C0 T0) = Fulfilled (Some [note])
  ∧ wire (play [ReactionAdded (reaction_on C0 T0 REACTIONS_MERGED U2);
                Settle 0 (slack (Some [note]) None None None)] (boot bot_store))
    = [fetch C0 T0].
Proof.
  split; [reflexivity|].
  refine (proj1 (proj2
    (NotificationTheorems.reaction_added_ignores_other_messages (boot bot_store)
       C0 T0 REACTIONS_MERGED U2 (slack (Some [note]) None None None) (Some [note])
       eq_refl _))).
  right. exists note. split; [reflexivity|discriminate].
Defined.

End DeliveryTheorems.

Module CommandTheorems.
Import PatternFacts CommandFacts.

(** [updateChannelTopic] never throws and never writes to the module state:
    it fetches the last 100 messages of the channel and, if that succeeds,
    sets the topic computed from them; a failure of either call is
    swallowed. *)
Theorem updateChannelTopic_is_best_effort
    (channelId : jstring) (env : nat → Env) (n : nat) (s : Store) :
  let history := ConversationsHistory channelId None false 100 in
  let r := run (updateChannelTopic channelId) env n s in
  outcome r = Completed tt
  ∧ writes r = []
  ∧ calls r = history :: match answer (env n) history with
                         | Fulfilled result =>
                             [ConversationsSetTopic channelId (topic_of result)]
                         | Rejected _ => []
                         end.
Proof.
  intros history r. subst r history. unfold updateChannelTopic. cbn.
  destruct (answer (env n) _) as [result|e]; cbn; [|done].
  by destruct (answer (env (S n)) _) as [[]|e].
Qed.

(** The three numbers of the topic add up to at most the number of fetched
    messages that carry a [bot_id]: a message of a person is never counted,
    and no message is counted twice. *)
Theorem topic_counts_bot_messages_once (msgs : list Message) :
  counted (foldl count_message no_counts msgs)
  ≤ length (filter (λ m, truthy (msg_bot_id m) = true) msgs).
Proof. apply (count_messages_bound msgs no_counts). Qed.

(** [/pr] with an empty text, or a text that begins with white space, has
    an empty first piece: the handler answers with the usage text and posts
    nothing. *)
Theorem pr_command_without_link_shows_usage
    (command : SlashCommand) (env : nat → Env) (s : Store) :
  answer (env 0) Ack = Fulfilled tt →
  no_first_word (cmd_text command) →
  let r := run (pr_command command) env 0 s in
  calls r = [Ack; Respond usage_text] ∧ writes r = [].
Proof.
  intros Hack Hno r. subst r.
  destruct (split_ws_head (cmd_text command)) as (p & rest & Hsplit & Hp).
  apply Hp in Hno. subst p.
  unfold pr_command. cbn. rewrite Hack, Hsplit. cbn.
  by destruct (answer (env 1) _) as [[]|e].
Qed.

Lemma pr_command_without_link_shows_usage_witness :
  no_first_word (cmd_text {| cmd_text := js " ez"; cmd_user_id := U1; cmd_channel_id := C0 |})
  ∧ calls (run (pr_command {| cmd_text := js " ez"; cmd_user_id := U1;
                              cmd_channel_id := C0 |})
             (alone (λ _, found_anchor)) 0 bot_store)
    = [Ack; Respond usage_text].
Proof.
  assert (H : no_first_word
                (cmd_text {| cmd_text := js " ez"; cmd_user_id := U1;
                             cmd_channel_id := C0 |})).
  { right. exists 32%N, (js "ez"). split; reflexivity. }
  split; [exact H|].
  exact (proj1 (pr_command_without_link_shows_usage _ (alone (λ _, found_anchor))
                  bot_store eq_refl H)).
Defined.

(** [/pr] with a link: after the acknowledgement the announcement is posted
    to the channel of the command, outside any thread.  If the post
    succeeds the topic is updated, and the command completes whatever the
    update does; if it fails the user is told so.  The command never writes
    to the module state. *)
Theorem pr_command_posts_then_updates_topic
    (command : SlashCommand) (env : nat → Env) (s : Store)
    (prUrl : jstring) (rest : list jstring) :
  let channel := cmd_channel_id command in
  let post := ChatPostMessage channel None
                (announcement prUrl (cmd_user_id command) (formatComplexity (rest !! 0))) in
  let history := ConversationsHistory channel None false 100 in
  answer (env 0) Ack = Fulfilled tt →
  split_ws (cmd_text command) = prUrl :: rest →
  prUrl ≠ [] →
  let r := run (pr_command command) env 0 s in
  calls r
  = Ack :: post
      :: (if fulfilled (answer (env 1) post)
          then history :: match answer (env 2) history with
                          | Fulfilled result =>
                              [ConversationsSetTopic channel (topic_of result)]
                          | Rejected _ => []
                          end
          else [Respond (js "Error: Failed to post PR.")])
  ∧ (fulfilled (answer (env 1) post) = true → outcome r = Completed tt)
  ∧ writes r = [].
Proof.
  intros channel post history Hack Hsplit Hurl r. subst r post history channel.
  unfold pr_command. cbn. rewrite Hack, Hsplit. cbn.
  destruct prUrl as [|c prUrl]; [done|]. cbn.
  destruct (answer (env 1) _) as [posted|e]; cbn.
  - destruct (answer (env 2) _) as [result|e]; cbn; [|done].
    by destruct (answer (env 3) _) as [[]|e].
  - by destruct (answer (env 2) _) as [[]|e'].
Qed.

Lemma pr_command_posts_then_updates_topic_witness :
  split_ws (js "https://x/1 ez") = [js "https://x/1"; js "ez"]
  ∧ writes (run (pr_command {| cmd_text := js "https://x/1 ez"; cmd_user_id := U1;
                               cmd_channel_id := C0 |})
              (alone (λ _, found_anchor)) 0 bot_store)
    = [].
Proof.
  assert (H : split_ws (js "https://x/1 ez") = [js "https://x/1"; js "ez"])
    by (vm_compute; reflexivity).
  split; [exact H|].
  refine (proj2 (proj2 (pr_command_posts_then_updates_topic
            {| cmd_text := js "https://x/1 ez"; cmd_user_id := U1; cmd_channel_id := C0 |}
            (alone (λ _, found_anchor)) bot_store (js "https://x/1") [js "ez"]
            eq_refl H _))).
  discriminate.
Defined.

(** The boot sequence: if the server cannot start, the failure propagates
    and [auth.test] is not called; otherwise [auth.test] is called, its
    [bot_id] becomes the recorded identity, and a failure of [auth.test] is
    swallowed, the identity staying as it was. *)
Theorem start_server_records_identity
    (port_env : option jstring) (env : nat → Env) (s : Store) :
  let r := run (start_server port_env) env 0 s in
  let s2 := interfere (env 1) (interfere (env 0) s) in
  match answer (env 0) (AppStart port_env) with
  | Rejected e =>
      outcome r = Abrupted (Throw e) ∧ calls r = [AppStart port_env] ∧ writes r = []
  | Fulfilled _ =>
      outcome r = Completed tt
      ∧ calls r = [AppStart port_env; AuthTest]
      ∧ match answer (env 1) AuthTest with
        | Fulfilled auth => final r = with_myBotId auth s2
        | Rejected _ => final r = s2 ∧ writes r = []
        end
  end.
Proof.
  intros r s2. subst r s2. unfold start_server. cbn.
  destruct (answer (env 0) _) as [[]|e]; cbn; [|done].
  by destruct (answer (env 1) _) as [auth|e].
Qed.

(** [dotenv.config()] runs after the check of the secrets and never
    overrides the process environment: the app is built with the secrets of
    the environment, and the port is that of the environment, or else that
    of the [.env] file. *)
Theorem dotenv_never_overrides_environment (env file : gmap string jstring) :
  has_secret env "SLACK_BOT_TOKEN" = true →
  has_secret env "SLACK_SIGNING_SECRET" = true →
  load_module env file
  = Serve (default [] (env !! "SLACK_SIGNING_SECRET"%string))
          (env !! "SLACK_BOT_TOKEN"%string)
          (start_server (port_of env file)).
Proof.
  unfold has_secret, load_module, port_of. intros Htoken Hsecret.
  rewrite Htoken, Hsecret. cbn [negb orb].
  destruct (env !! "SLACK_SIGNING_SECRET"%string) as [secret|] eqn:Es; [|done].
  destruct (env !! "SLACK_BOT_TOKEN"%string) as [token|] eqn:Et; [|done].
  unfold dotenv_config.
  rewrite (lookup_union_Some_l env file _ _ Es), (lookup_union_Some_l env file _ _ Et).
  unfold or_else. rewrite Hsecret. cbn [default from_option id].
  do 2 f_equal. rewrite lookup_union.
  destruct (env !! "PORT"%string) as [p|]; [by destruct (file !! "PORT"%string)|].
  by destruct (file !! "PORT"%string).
Qed.

Lemma dotenv_never_overrides_environment_witness :
  has_secret configured "SLACK_BOT_TOKEN" = true
  ∧ has_secret configured "SLACK_SIGNING_SECRET" = true
  ∧ load_module configured {["SLACK_BOT_TOKEN"%string := js "xoxb-2"]}
    = Serve (default [] (configured !! "SLACK_SIGNING_SECRET"%string))
        (configured !! "SLACK_BOT_TOKEN"%string)
        (start_server (port_of configured {["SLACK_BOT_TOKEN"%string := js "xoxb-2"]})).
Proof.
  assert (H1 : has_secret configured "SLACK_BOT_TOKEN" = true)
    by (vm_compute; reflexivity).
  assert (H2 : has_secret configured "SLACK_SIGNING_SECRET" = true)
    by (vm_compute; reflexivity).
  split; [exact H1|]. split; [exact H2|].
  exact (dotenv_never_overrides_environment configured _ H1 H2).
Defined.

(** The complexity label is read without regard to case, in both variants:
    two labels with the same lower case are rendered alike. *)
Theorem formatComplexity_ignores_case (l1 l2 : jstring) :
  toLowerCase l1 = toLowerCase l2 →
  formatComplexity (Some l1) = formatComplexity (Some l2)
  ∧ Earlier.formatComplexity (Some l1) = Earlier.formatComplexity (Some l2).
Proof.
  intros Hl. unfold formatComplexity, Earlier.formatComplexity.
  rewrite <- (truthy_toLowerCase l1), <- (truthy_toLowerCase l2).
  cbn [default from_option id]. by rewrite Hl.
Qed.

Lemma formatComplexity_ignores_case_witness :
  toLowerCase (js "LaRgE") = toLowerCase (js "large")
  ∧ formatComplexity (Some (js "LaRgE")) = formatComplexity (Some (js "large")).
Proof.
  assert (H : toLowerCase (js "LaRgE") = toLowerCase (js "large"))
    by (vm_compute; reflexivity).
  split; [exact H|]. exact (proj1 (formatComplexity_ignores_case _ _ H)).
Defined.

End CommandTheorems.

Module EarlierTheorems.
Import DeliveryFacts.

(** [/pr] in the earlier variant: after the acknowledgement the
    announcement is posted to the channel of the command; a successful post
    is confirmed to the user; a failed post, and also a failed confirmation,
    is answered with the error text.  No topic is touched and nothing is
    written to the module state. *)
Theorem earlier_pr_command_confirms
    (command : SlashCommand) (env : nat → Env) (s : Store)
    (prUrl : jstring) (rest : list jstring) :
  let channel := cmd_channel_id command in
  let post := ChatPostMessage channel None
                (Earlier.announcement prUrl (cmd_user_id command)
                   (Earlier.formatComplexity (rest !! 0))) in
  let confirmation := Respond (EarlierBot.posted_text channel) in
  let failure := Respond (js "Error: Failed to post PR.") in
  answer (env 0) Ack = Fulfilled tt →
  split_ws (cmd_text command) = prUrl :: rest →
  prUrl ≠ [] →
  let r := run (EarlierBot.pr_command command) env 0 s in
  calls r
  = Ack :: post
      :: (if fulfilled (answer (env 1) post)
          then confirmation
                 :: (if fulfilled (answer (env 2) confirmation) then [] else [failure])
          else [failure])
  ∧ writes r = [].
Proof.
  intros channel post confirmation failure Hack Hsplit Hurl r.
  subst r post confirmation failure channel.
  unfold EarlierBot.pr_command. cbn. rewrite Hack, Hsplit. cbn.
  destruct prUrl as [|c prUrl]; [done|]. cbn.
  destruct (answer (env 1) _) as [posted|e]; cbn.
  - destruct (answer (env 2) _) as [[]|e]; cbn; [done|].
    by destruct (answer (env 3) _) as [[]|e'].
  - by destruct (answer (env 2) _) as [[]|e'].
Qed.

Lemma earlier_pr_command_confirms_witness :
  split_ws (js "https://x/1 small") = [js "https://x/1"; js "small"]
  ∧ writes (run (EarlierBot.pr_command
                   {| cmd_text := js "https://x/1 small"; cmd_user_id := U1;
                      cmd_channel_id := C0 |})
              (alone (λ _, found_anchor)) 0 bot_store)
    = [].
Proof.
  assert (H : split_ws (js "https://x/1 small") = [js "https://x/1"; js "small"])
    by (vm_compute; reflexivity).
  split; [exact H|].
  refine (proj2 (earlier_pr_command_confirms
            {| cmd_text := js "https://x/1 small"; cmd_user_id := U1;
               cmd_channel_id := C0 |}
            (alone (λ _, found_anchor)) bot_store (js "https://x/1") [js "small"]
            eq_refl H _)).
  discriminate.
Defined.

(** For every reaction but [speech_balloon], [white_check_mark] and
    [repeat], [merged] among them, the [reaction_added] handlers of the two
    variants run alike against every environment: the same calls, the same
    writes, the same final state.  What is proved of the merge workflow of
    one holds of the other. *)
Theorem earlier_reaction_added_agrees
    (event : ReactionEvent) (env : nat → Env) (n : nat) (s : Store) :
  ev_reaction event ≠ REACTIONS_COMMENT →
  ev_reaction event ≠ REACTIONS_APPROVED →
  ev_reaction event ≠ REACTIONS_UPDATED →
  run (EarlierBot.reaction_added event) env n s = run (reaction_added event) env n s.
Proof.
  intros Hc Ha Hu. unfold EarlierBot.reaction_added, reaction_added.
  destruct (ev_item event) as [channel ts| |]; [|done..].
  cbn. destruct (answer (env n) _) as [history|e]; cbn; [|done].
  unfold EarlierBot.dispatch, dispatch.
  destruct (first_message history) as [m|]; cbn; [|done].
  destruct (opt_eqb (msg_bot_id m) _); cbn; [|done].
  rewrite !(str_eqb_ne _ _ Hc), !(str_eqb_ne _ _ Ha), !(str_eqb_ne _ _ Hu).
  reflexivity.
Qed.

Lemma earlier_reaction_added_agrees_witness :
  run (EarlierBot.reaction_added (reaction_on C0 T0 REACTIONS_MERGED U2))
    (alone (λ _, found_anchor)) 0 bot_store
  = run (reaction_added (reaction_on C0 T0 REACTIONS_MERGED U2))
      (alone (λ _, found_anchor)) 0 bot_store.
Proof.
  apply earlier_reaction_added_agrees; discriminate.
Defined.

End EarlierTheorems.
